(** * go-mesoslog: the resolution and tailing engine of [mesoslog/client.go]

    A shallow embedding of the pure parts of [client.go] (task lookup,
    sandbox resolution, URL construction, log decoration) and of its
    effectful loops (the tail poller and the channel merger) as explicit
    state machines, followed by the properties proved about them. *)

From Stdlib Require Import ZArith List String Ascii Bool Lia Permutation Sorted DecimalString.
From Stdlib Require FMapAVL FMapFacts OrderedTypeEx.
Import ListNotations.

Open Scope string_scope.
Open Scope Z_scope.

(** ** Go values used by the client *)

(** Go's [int] on the 64-bit targets the client is built for: additions and
    multiplications wrap around modulo 2^64 into the range from -2^63 to
    2^63 - 1. *)
Module GoInt.

Definition minInt : Z := - 2 ^ 63.
Definition maxInt : Z := 2 ^ 63 - 1.

Definition wrap (z : Z) : Z := (z + 2 ^ 63) mod 2 ^ 64 - 2 ^ 63.

Definition add (a b : Z) : Z := wrap (a + b).
Definition mul (a b : Z) : Z := wrap (a * b).

Definition inRange (z : Z) : Prop := minInt <= z <= maxInt.

End GoInt.

(** Go strings are byte sequences; [len], slicing and the functions of the
    [strings] package that the client calls.  A slice expression whose
    bounds are out of range panics: [slice] answers [None] there. *)
Module GoStrings.

Definition len (s : string) : Z := Z.of_nat (String.length s).

(** [hasByte c s]: the byte [c] occurs in [s]. *)
Fixpoint hasByte (c : ascii) (s : string) : bool :=
  match s with
  | EmptyString => false
  | String a s' => Ascii.eqb a c || hasByte c s'
  end.

Fixpoint indexFrom (substr s : string) (i : Z) : Z :=
  if String.prefix substr s then i
  else match s with
       | EmptyString => -1
       | String _ s' => indexFrom substr s' (i + 1)
       end.

(** [strings.Index(s, substr)]: the offset of the first occurrence of
    [substr] in [s], or [-1]. *)
Definition Index (s substr : string) : Z := indexFrom substr s 0.

(** [s[lo:hi]]; Go panics unless [0 <= lo <= hi <= len(s)]. *)
Definition slice (s : string) (lo hi : Z) : option string :=
  if (0 <=? lo) && (lo <=? hi) && (hi <=? len s)
  then Some (String.substring (Z.to_nat lo) (Z.to_nat (hi - lo)) s)
  else None.

(** [s[lo:]], that is [s[lo:len(s)]]. *)
Definition sliceFrom (s : string) (lo : Z) : option string :=
  slice s lo (len s).

(** [strings.Split(s, sep)] for a one-byte separator, the only kind the
    client passes (["\n"] and [":"]): the pieces of [s] between the
    occurrences of [sep]; a string without [sep] gives the one piece [s],
    so the result is never empty. *)
Fixpoint Split (s : string) (sep : ascii) : list string :=
  match s with
  | EmptyString => [EmptyString]
  | String a s' =>
      if Ascii.eqb a sep then EmptyString :: Split s' sep
      else match Split s' sep with
           | [] => [String a EmptyString]
           | piece :: pieces => String a piece :: pieces
           end
  end.

(** The text before and after the first occurrence of the byte [sep]. *)
Fixpoint cut (s : string) (sep : ascii) : option (string * string) :=
  match s with
  | EmptyString => None
  | String a s' =>
      if Ascii.eqb a sep then Some (EmptyString, s')
      else match cut s' sep with
           | Some (before, after) => Some (String a before, after)
           | None => None
           end
  end.

(** [strings.SplitN(s, sep, 2)] for a one-byte separator: [s] is split at
    the first occurrence of [sep] only. *)
Definition SplitN2 (s : string) (sep : ascii) : list string :=
  match cut s sep with
  | Some (before, after) => [before; after]
  | None => [s]
  end.

(** The text of [s] before its first byte [c], all of [s] when it has
    none. *)
Fixpoint beforeByte (c : ascii) (s : string) : string :=
  match s with
  | EmptyString => EmptyString
  | String a s' => if Ascii.eqb a c then EmptyString else String a (beforeByte c s')
  end.

End GoStrings.
Import GoStrings.

Definition LF : ascii := "010"%char.
Definition dot : ascii := "."%char.
Definition dash : ascii := "-"%char.
Definition at_sign : ascii := "@"%char.
Definition colon : ascii := ":"%char.

(** One-byte strings, the separators as the source writes them. *)
Definition str (c : ascii) : string := String c EmptyString.

(** ** Log decoration *)

(** [buf.WriteString(fmt.Sprintf("[%s] %s\n", dec, l))] for the lines that
    are not empty. *)
Definition writeLine (dec : string) (buf l : string) : string :=
  if 0 <? len l then buf ++ "[" ++ dec ++ "] " ++ l ++ str LF else buf.

(** [decorateLog] (client.go, lines 266-279).  [None] is the run-time panic
    of a slice expression whose bound is out of range, as when [Index]
    answers [-1]. *)
Definition decorateLog (name data : string) : option string :=
  let lines := Split data LF in
  let taskIdx := Index name (str dot) in
  match slice name 0 taskIdx with
  | None => None
  | Some dec =>
      match sliceFrom name (taskIdx + 1) with
      | None => None
      | Some taskId =>
          match slice taskId 0 (Index taskId (str dash)) with
          | None => None
          | Some short =>
              let dec := dec ++ "." ++ short in
              Some (fold_left (writeLine dec) lines EmptyString)
          end
      end
  end.

(** ** Errors *)

(** The client's own errors are made by [fmt.Errorf] and told apart by
    their message; the errors of [net/http], [io] and [encoding/json] that
    it passes on are [External]. *)
Inductive error : Type :=
| Errorf (msg : string)
| External (msg : string).

Inductive result (A : Type) : Type :=
| Ok (a : A)
| Err (e : error).
Arguments Ok {A} a.
Arguments Err {A} e.

(** What a request to the network comes back with: the decoded answer, or
    the failure that [net/http], [io] or [encoding/json] reported. *)
Inductive fetched (A : Type) : Type :=
| Fetched (a : A)
| Failed (msg : string).
Arguments Fetched {A} a.
Arguments Failed {A} msg.

(** The error kinds, under the names the design gives them. *)
Definition NotFound : error := Errorf "application could not be found".
Definition NodeNotFound : error :=
  Errorf "invalid state.json; referenced slave not present".
Definition MalformedAddress (pid : string) : error :=
  Errorf ("invalid slave pid " ++ pid).
Definition DirectoryNotFound : error :=
  Errorf "couldn't locate directory on slave".

(** ** The decoded state documents *)

(** The types of the state documents are declared outside [client.go];
    each record below has the fields [client.go] reads, under the names it
    reads them by.  Slices are lists ([nil] is the empty list) and the
    decoded records are taken to be non-null. *)

(** Modelled from the spec: the type [mstateTaskStatus] is declared outside
    [client.go]; a status record carries a timestamp.  The timestamp is a
    number of the feed; only its order is used, and it is an integer
    here. *)
Module mstateTaskStatus.
Record t : Type := mk { Timestamp : Z }.
End mstateTaskStatus.

(** Modelled from the spec: the type [mstateTask] is declared outside
    [client.go]; a task has its identity ([ID], [Name]), the node, the
    framework and the executor it belongs to, its status records in the
    order of the feed, and the latest of them once [UpdateLastState] has
    recorded it. *)
Module mstateTask.
Record t : Type := mk {
  ID : string;
  Name : string;
  SlaveID : string;
  FrameworkID : string;
  ExecutorID : string;
  Statuses : list mstateTaskStatus.t;
  LastState : option mstateTaskStatus.t
}.

(** Modelled from the spec: the method [UpdateLastState] of [mstateTask] is
    declared outside [client.go]; it records the given status as the
    task's latest one. *)
Definition UpdateLastState (task : t) (state : option mstateTaskStatus.t) : t :=
  {| ID := ID task; Name := Name task; SlaveID := SlaveID task;
     FrameworkID := FrameworkID task; ExecutorID := ExecutorID task;
     Statuses := Statuses task; LastState := state |}.
End mstateTask.

(** Modelled from the spec: the type [mstateSlave] is declared outside
    [client.go]; a node has its id, its network address and its
    process-locator string. *)
Module mstateSlave.
Record t : Type := mk { ID : string; Hostname : string; Pid : string }.
End mstateSlave.

(** Modelled from the spec: the framework record of the master state is
    declared outside [client.go]; it has the active and the completed
    tasks of the framework. *)
Module Framework.
Record t : Type := mk {
  Tasks : list mstateTask.t;
  CompletedTasks : list mstateTask.t
}.
End Framework.

(** Modelled from the spec: the type [masterState] is declared outside
    [client.go]; the master's state lists the frameworks and the nodes. *)
Record masterState : Type := {
  Frameworks : list Framework.t;
  Slaves : list mstateSlave.t
}.

(** Modelled from the spec: the executor record of a node's state is
    declared outside [client.go]; an executor has its id and its sandbox
    directory. *)
Module Executor.
Record t : Type := mk { ID : string; Directory : string }.
End Executor.

(** Modelled from the spec: the framework record of a node's state is
    declared outside [client.go]; it has the framework's id and its active
    and completed executors on the node. *)
Module SlaveFramework.
Record t : Type := mk {
  ID : string;
  Executors : list Executor.t;
  CompletedExecutors : list Executor.t
}.
End SlaveFramework.

(** Modelled from the spec: the type [slaveState] is declared outside
    [client.go]; a node's state lists its frameworks. *)
Module slaveState.
Record t : Type := mk { Frameworks : list SlaveFramework.t }.
End slaveState.

(** Modelled from the spec: the type [readData] is declared outside
    [client.go]; the answer to a paginated read carries the offset served
    and the data. *)
Record readData : Type := { Data : string; Offset : Z }.

(** Modelled from the spec: the type [LogType] and its [String] method are
    declared outside [client.go]; there are two kinds of log, each with
    its file name. *)
Inductive LogType : Type := STDOUT | STDERR.

Definition LogType_String (lt : LogType) : string :=
  match lt with
  | STDOUT => "stdout"
  | STDERR => "stderr"
  end.

(** ** The client *)

Record MesosClientOptions : Type := {
  SearchCompletedTasks : bool;
  ShowLatestOnly : bool
}.

Record MesosClient : Type := {
  Host : string;
  Port : Z;
  MasterURL : string;
  State : masterState;
  Options : MesosClientOptions
}.

(** The types [taskInfo] and [slaveInfo] are declared outside [client.go]
    too; [findTask] and [getSlaveInfo] build them field by field. *)
Module taskInfo.
Record t : Type := mk {
  Tasks : list mstateTask.t;
  CompletedTasks : list mstateTask.t
}.
End taskInfo.

Module slaveInfo.
Record t : Type := mk {
  Slave : mstateSlave.t;
  State : slaveState.t;
  Directory : string
}.
End slaveInfo.

(** [url.URL], with the three fields [constructSlaveURL] sets. *)
Module URL.
Record t : Type := mk { Scheme : string; Host : string; Opaque : string }.
End URL.

(** ** Task lookup *)

(** [findTaskLastState] (lines 368-375): the last element of the status
    sequence, [nil] for a task without statuses. *)
Definition findTaskLastState (task : mstateTask.t) : option mstateTaskStatus.t :=
  let statuses := mstateTask.Statuses task in
  if 0 <? Z.of_nat (List.length statuses)
  then nth_error statuses (List.length statuses - 1)
  else None.

(** The test of lines 350 and 358. *)
Definition matchesApp (appID : string) (task : mstateTask.t) : bool :=
  (mstateTask.Name task =? appID)%string || (mstateTask.ID task =? appID)%string.

(** The task as [findTask] leaves it: [task.UpdateLastState(findTaskLastState(task))]. *)
Definition withLastState (task : mstateTask.t) : mstateTask.t :=
  mstateTask.UpdateLastState task (findTaskLastState task).

(** The body of the loop of lines 349-354, on the list being appended to. *)
Definition collect (appID : string) (acc : list mstateTask.t) (task : mstateTask.t) : list mstateTask.t :=
  if matchesApp appID task then acc ++ [withLastState task] else acc.

(** [findTask] (lines 343-366).  The tasks are pointers in the source and
    [UpdateLastState] writes through them; the value returned here is the
    task after that write.  Nothing [findTask] or its callers read is
    changed by the write except [LastState] itself. *)
Definition findTask (state : masterState) (appID : string) : taskInfo.t :=
  fold_left
    (fun (ti : taskInfo.t) (framework : Framework.t) =>
       let ti :=
         taskInfo.mk (fold_left (collect appID) (Framework.Tasks framework) (taskInfo.Tasks ti))
                     (taskInfo.CompletedTasks ti) in
       taskInfo.mk (taskInfo.Tasks ti)
                   (fold_left (collect appID) (Framework.CompletedTasks framework)
                              (taskInfo.CompletedTasks ti)))
    (Frameworks state)
    (taskInfo.mk [] []).

(** [findSlave] (lines 387-394): the first node with the given id. *)
Definition findSlave (state : masterState) (slaveID : string) : option mstateSlave.t :=
  List.find (fun slave => (mstateSlave.ID slave =? slaveID)%string) (Slaves state).

(** [constructSlaveURL] (lines 396-417). *)
Definition constructSlaveURL (slave : mstateSlave.t) : result URL.t :=
  let parts := SplitN2 (mstateSlave.Pid slave) at_sign in
  if Z.of_nat (List.length parts) <? 2
  then Err (Errorf ("invalid slave pid " ++ mstateSlave.Pid slave))
  else
    let slaveName := nth 0 parts EmptyString in
    let hostAndPort := Split (nth 1 parts EmptyString) colon in
    let port :=
      if 1 <? Z.of_nat (List.length hostAndPort)
      then nth 1 hostAndPort EmptyString
      else "80" in
    let host := mstateSlave.Hostname slave ++ ":" ++ port in
    let path := slaveName ++ "/state.json" in
    Ok (URL.mk "http" host ("//" ++ host ++ "/" ++ path)).

(** The port [constructSlaveURL] reads from the part of a locator that
    follows ['@'] (lines 403-407): the second piece of that part split at
    [':'], or "80" when there is no second piece. *)
Definition portOf (rest : string) : string :=
  match Split rest colon with
  | _ :: port :: _ => port
  | _ => "80"
  end.

(** The test of line 456. *)
Definition matchesExecutor (task : mstateTask.t) (executor : Executor.t) : bool :=
  (Executor.ID executor =? mstateTask.ExecutorID task)%string
  || (Executor.ID executor =? mstateTask.ID task)%string.

(** The executors [findDirectory] looks through in one framework (lines
    450-453). *)
Definition executorsOf (completedTasks : bool) (framework : SlaveFramework.t) : list Executor.t :=
  if completedTasks
  then SlaveFramework.CompletedExecutors framework
  else SlaveFramework.Executors framework.

Fixpoint findDirectoryIn (frameworks : list SlaveFramework.t) (task : mstateTask.t)
         (completedTasks : bool) : string :=
  match frameworks with
  | [] => EmptyString
  | framework :: rest =>
      if negb (SlaveFramework.ID framework =? mstateTask.FrameworkID task)%string
      then findDirectoryIn rest task completedTasks
      else
        match List.find (matchesExecutor task) (executorsOf completedTasks framework) with
        | Some executor => Executor.Directory executor
        | None => findDirectoryIn rest task completedTasks
        end
  end.

(** The executor whose directory [findDirectoryIn] answers with: the first
    one that matches, the frameworks and their executors taken in order. *)
Fixpoint firstExecutorIn (frameworks : list SlaveFramework.t) (task : mstateTask.t)
         (completedTasks : bool) : option Executor.t :=
  match frameworks with
  | [] => None
  | framework :: rest =>
      if negb (SlaveFramework.ID framework =? mstateTask.FrameworkID task)%string
      then firstExecutorIn rest task completedTasks
      else
        match List.find (matchesExecutor task) (executorsOf completedTasks framework) with
        | Some executor => Some executor
        | None => firstExecutorIn rest task completedTasks
        end
  end.

Definition firstExecutor (sstate : slaveState.t) (task : mstateTask.t) (completedTasks : bool)
  : option Executor.t :=
  firstExecutorIn (slaveState.Frameworks sstate) task completedTasks.

(** [findDirectory] (lines 443-462): the directory of the first matching
    executor, the empty string when there is none. *)
Definition findDirectory (sstate : slaveState.t) (task : mstateTask.t) (completedTasks : bool) : string :=
  findDirectoryIn (slaveState.Frameworks sstate) task completedTasks.

(** ** Sandbox resolution *)

Section Resolution.

(** [getSlaveState] (lines 419-441) asks the node for its state document
    over HTTP and decodes it; the answer is the network's, so it is taken
    as given.  Every error it returns is one that [net/http], [io] or
    [encoding/json] gave it. *)
Variable getSlaveState : URL.t -> fetched slaveState.t.

(** [getSlaveInfo] (lines 281-304). *)
Definition getSlaveInfo (c : MesosClient) (task : mstateTask.t) : result slaveInfo.t :=
  match findSlave (State c) (mstateTask.SlaveID task) with
  | None => Err (Errorf "invalid state.json; referenced slave not present")
  | Some slave =>
      match constructSlaveURL slave with
      | Err err => Err err
      | Ok slaveURL =>
          match getSlaveState slaveURL with
          | Failed msg => Err (External msg)
          | Fetched slaveState =>
              let directory :=
                findDirectory slaveState task (SearchCompletedTasks (Options c)) in
              if (directory =? "")%string
              then Err (Errorf "couldn't locate directory on slave")
              else Ok (slaveInfo.mk slave slaveState directory)
          end
      end
  end.

(** ** Starting the tailers *)

(** The arguments of one [c.asyncTail(task, slaveInfo, logtype, duration)]
    call: the tailer it starts. *)
Record tailer : Type := {
  tailTask : mstateTask.t;
  tailInfo : slaveInfo.t;
  tailLog : LogType;
  tailDuration : Z
}.

(** The loop of lines 137-146: the tailers started so far, and the error
    that ended the loop early, if any. *)
Fixpoint startTailers (c : MesosClient) (logtype : LogType) (duration : Z)
         (tasks : list mstateTask.t) (chans : list tailer) : list tailer * option error :=
  match tasks with
  | [] => (chans, None)
  | task :: rest =>
      match getSlaveInfo c task with
      | Err err => (chans, Some err)
      | Ok info =>
          startTailers c logtype duration rest
                       (chans ++ [Build_tailer task info logtype duration])
      end
  end.

(** [TailLogToChannel] (lines 129-156) up to the forwarding loop: the
    tailers it has started and the error it returns; [None] when it goes on
    to forward the merged output until [done]. *)
Definition TailLogToChannel (c : MesosClient) (appID : string) (logtype : LogType)
           (duration : Z) : list tailer * option error :=
  let tasks := taskInfo.Tasks (findTask (State c) appID) in
  if Z.of_nat (List.length tasks) =? 0
  then ([], Some (Errorf "application could not be found"))
  else startTailers c logtype duration tasks [].

End Resolution.

(** ** Ordering by latest status *)

(** Modelled from the spec: [SortTasksByLatestTimestamp] and its [Less] are
    declared outside [client.go].  The order is by descending timestamp of
    the latest status, and a task without a status comes after every task
    that has one. *)
Definition Less (a b : mstateTask.t) : bool :=
  match mstateTask.LastState a, mstateTask.LastState b with
  | Some sa, Some sb => mstateTaskStatus.Timestamp sb <? mstateTaskStatus.Timestamp sa
  | Some _, None => true
  | None, _ => false
  end.

(** A comparison that [sort.Sort] can sort by: nothing is before itself
    or before what is before it, and being not before is transitive. *)
Definition strictWeakOrder (less : mstateTask.t -> mstateTask.t -> bool) : Prop :=
  (forall a b, less a b = true -> less b a = false)
  /\ (forall a b c, less a b = false -> less b c = false -> less a c = false).

(** What Go's [sort.Sort] promises, and all that is known of it here: it
    moves the elements by [Swap] only (that of a slice, as [Len] is), so
    the result has the elements of the input, each as often; and for a
    comparison as above no element of the result is [less] than one placed
    before it.  Elements that compare equal come out in an order the
    library does not tell (the sort is not stable). *)
Definition sortContract
           (sort : (mstateTask.t -> mstateTask.t -> bool) ->
                   list mstateTask.t -> list mstateTask.t) : Prop :=
  forall less data,
    Permutation (sort less data) data
    /\ (strictWeakOrder less ->
        forall i j a b,
          (i < j)%nat ->
          nth_error (sort less data) i = Some a ->
          nth_error (sort less data) j = Some b ->
          less b a = false).

(** One sort that keeps the promise, for the examples: insertion sort.
    [sortedRev] is the sorted prefix, last element first: the new element
    moves left while it is [less] than its neighbour. *)
Fixpoint insertRev (less : mstateTask.t -> mstateTask.t -> bool) (x : mstateTask.t)
         (sortedRev : list mstateTask.t) : list mstateTask.t :=
  match sortedRev with
  | [] => [x]
  | y :: rest => if less x y then y :: insertRev less x rest else x :: y :: rest
  end.

Definition insertionSort (less : mstateTask.t -> mstateTask.t -> bool)
           (data : list mstateTask.t) : list mstateTask.t :=
  rev (fold_left (fun sortedRev x => insertRev less x sortedRev) data []).

Section Sorting.

(** [sort.Sort] on a slice of tasks, by a given [Less]: the library's
    function, taken as given. *)
Variable sort_Sort :
  (mstateTask.t -> mstateTask.t -> bool) -> list mstateTask.t -> list mstateTask.t.

(** [GetLog] (lines 89-127) up to its loop: the task sequence that the
    loop of line 108 ranges over, or the error returned before it. *)
Definition GetLog_tasks (c : MesosClient) (appID : string) : result (list mstateTask.t) :=
  let taskInfo := findTask (State c) appID in
  let tasks :=
    if SearchCompletedTasks (Options c)
    then taskInfo.CompletedTasks taskInfo
    else taskInfo.Tasks taskInfo in
  let tasks := sort_Sort Less tasks in
  if Z.of_nat (List.length tasks) =? 0
  then Err (Errorf "application could not be found")
  else
    let tasks := if ShowLatestOnly (Options c) then firstn 1 tasks else tasks in
    Ok tasks.

End Sorting.

(** ** The tail poller *)

Definition PageLength : Z := 5000.

(** [%v] of an [int]. *)
Definition showInt (z : Z) : string := NilZero.string_of_int (Z.to_int z).

(** [fmt.Sprintf(TailURIFmt, hostname, path, offset, length)]. *)
Definition TailURI (hostname path : string) (offset length : Z) : string :=
  "http://" ++ hostname ++ ":5051/files/read.json?path=" ++ path
  ++ "&offset=" ++ showInt offset ++ "&length=" ++ showInt length.

(** [time.Second], in the nanoseconds a [time.Duration] counts. *)
Definition time_Second : Z := 1000000000.

(** What the goroutine of [asyncTail] does to the world. *)
Inductive action : Type :=
| HttpGet (url : string)          (* download(url, "") *)
| Printf (msg : string)           (* fmt.Printf *)
| Sleep (d : Z)                   (* time.Sleep(d) *)
| Send (chunk : string)           (* ch <- chunk *)
| Panic.                          (* a run-time panic ends the goroutine *)

Inductive next : Type :=
| Continue (offset : Z)
| Crashed.

Section Tail.

(** [json.Unmarshal([]byte(resp), &rd)] on a zero [readData]; the source
    drops its error, so [rd] is whatever the decoder left in it. *)
Variable unmarshal : string -> readData.

(** The path and the URL of lines 215 and 219. *)
Definition tailPath (t : tailer) : string :=
  slaveInfo.Directory (tailInfo t) ++ "/" ++ LogType_String (tailLog t).

Definition tailURL (t : tailer) (offset : Z) : string :=
  TailURI (mstateSlave.Hostname (slaveInfo.Slave (tailInfo t))) (tailPath t) offset PageLength.

(** One turn of the loop of lines 218-235 after its request was answered
    by [resp]: what it does, and the offset of the next turn. *)
Definition pollOnce (t : tailer) (offset : Z) (resp : fetched string) : list action * next :=
  match resp with
  | Failed msg => ([Printf ("Error: " ++ msg)], Continue offset)
  | Fetched body =>
      let rd := unmarshal body in
      if len (Data rd) <? 5
      then ([Sleep (GoInt.mul (tailDuration t) time_Second)], Continue offset)
      else
        let offset := GoInt.add offset (len (Data rd)) in
        match decorateLog (mstateTask.ID (tailTask t)) (Data rd) with
        | Some chunk => ([Send chunk], Continue offset)
        | None => ([Panic], Crashed)
        end
  end.

(** The goroutine from a turn at [offset] on, its requests answered by
    [resps] in order: everything it does up to and including the request
    that no answer is left for. *)
Fixpoint tailFrom (t : tailer) (offset : Z) (resps : list (fetched string)) : list action :=
  HttpGet (tailURL t offset) ::
  match resps with
  | [] => []
  | resp :: rest =>
      let (acts, nx) := pollOnce t offset resp in
      acts ++ match nx with
              | Continue offset' => tailFrom t offset' rest
              | Crashed => []
              end
  end.

(** Where the loop stands once the requests of its first turns were
    answered by [resps]: about to ask at an offset, or ended by a panic. *)
Fixpoint offsetAfter (t : tailer) (offset : Z) (resps : list (fetched string)) : next :=
  match resps with
  | [] => Continue offset
  | resp :: rest =>
      match snd (pollOnce t offset resp) with
      | Continue offset' => offsetAfter t offset' rest
      | Crashed => Crashed
      end
  end.

(** [asyncTail] (lines 213-238): the loop starts at offset 0. *)
Definition asyncTail (t : tailer) (resps : list (fetched string)) : list action :=
  tailFrom t 0 resps.

End Tail.

(** ** Merging the tailers' channels *)

(** What an input channel of [merge] will still deliver, and whether its
    sender closes it after that. *)
Record source : Type := { pending : list string; closes : bool }.

(** The goroutine [output(c)] of lines 246-251: waiting in [range c],
    blocked in [out <- n] with [n] in hand, or past [wg.Done()]. *)
Inductive forwarder : Type :=
| Receiving
| Sending (n : string)
| Finished.

(** [merge] at work: each input with its goroutine, what the reader of
    [out] has received so far, and whether [out] was closed. *)
Record merged : Type := {
  inputs : list (source * forwarder);
  delivered : list string;
  outClosed : bool
}.

(** [merge(cs...)] (lines 240-264) as it returns: one goroutine per input,
    each about to receive. *)
Definition merge (cs : list source) : merged :=
  {| inputs := map (fun c => (c, Receiving)) cs; delivered := []; outClosed := false |}.

(** The steps the scheduler can choose from.  [out] is unbuffered and its
    reader takes whatever is offered, so a goroutine with a value in hand
    can always hand it over. *)
Inductive move : Type :=
| Recv (i : nat)        (* goroutine i receives the next value of its input *)
| Eof (i : nat)         (* goroutine i finds its input closed and is done *)
| Forward (i : nat)     (* goroutine i hands its value to the reader of out *)
| CloseOut.             (* wg.Wait() returns and out is closed *)

Fixpoint setNth {A : Type} (i : nat) (x : A) (l : list A) : list A :=
  match l, i with
  | [], _ => []
  | _ :: l', O => x :: l'
  | y :: l', S i' => y :: setNth i' x l'
  end.

Definition isFinished (p : source * forwarder) : bool :=
  match snd p with
  | Finished => true
  | _ => false
  end.

Definition fire (m : move) (st : merged) : option merged :=
  match m with
  | Recv i =>
      match nth_error (inputs st) i with
      | Some ({| pending := n :: rest; closes := cl |}, Receiving) =>
          Some {| inputs := setNth i ({| pending := rest; closes := cl |}, Sending n) (inputs st);
                  delivered := delivered st;
                  outClosed := outClosed st |}
      | _ => None
      end
  | Eof i =>
      match nth_error (inputs st) i with
      | Some ({| pending := []; closes := true |}, Receiving) =>
          Some {| inputs := setNth i ({| pending := []; closes := true |}, Finished) (inputs st);
                  delivered := delivered st;
                  outClosed := outClosed st |}
      | _ => None
      end
  | Forward i =>
      match nth_error (inputs st) i with
      | Some (c, Sending n) =>
          Some {| inputs := setNth i (c, Receiving) (inputs st);
                  delivered := delivered st ++ [n];
                  outClosed := outClosed st |}
      | _ => None
      end
  | CloseOut =>
      if forallb isFinished (inputs st) && negb (outClosed st)
      then Some {| inputs := inputs st; delivered := delivered st; outClosed := true |}
      else None
  end.

(** A schedule, run from a state; [None] when it asks for a step that is
    not enabled. *)
Fixpoint run (schedule : list move) (st : merged) : option merged :=
  match schedule with
  | [] => Some st
  | m :: rest =>
      match fire m st with
      | Some st' => run rest st'
      | None => None
      end
  end.

(** The values a goroutine still owes the reader: the one in hand, then
    those its input has yet to deliver; a goroutine past [wg.Done()] owes
    nothing. *)
Definition owed (p : source * forwarder) : list string :=
  match snd p with
  | Receiving => pending (fst p)
  | Sending n => n :: pending (fst p)
  | Finished => []
  end.

(** The steps a goroutine has left: a receive and a hand-over per pending
    value, the hand-over of the value in hand, and the end of its loop if
    its input gets closed. *)
Definition stepsLeft (p : source * forwarder) : nat :=
  match snd p with
  | Receiving => 2 * List.length (pending (fst p)) + (if closes (fst p) then 1 else 0)
  | Sending _ => 2 * List.length (pending (fst p)) + 1 + (if closes (fst p) then 1 else 0)
  | Finished => 0
  end.

(** The steps left in all: those of the goroutines, and the closing of
    [out]. *)
Definition weight (st : merged) : nat :=
  list_sum (map stepsLeft (inputs st)) + (if outClosed st then 0 else 1).

(** No goroutine can receive or hand over a value any more. *)
Definition quiescent (st : merged) : Prop :=
  forall i, fire (Recv i) st = None /\ fire (Forward i) st = None.

(** ** What the design says the code computes *)

(** The decoration as the design words it: the empty lines dropped, every
    other line between ['['], the prefix, ["] "] and a line feed. *)
Definition nonEmpty (l : string) : bool := negb (l =? "")%string.

Definition decorated (prefix data : string) : string :=
  fold_right append EmptyString
    (map (fun l => "[" ++ prefix ++ "] " ++ l ++ str LF) (filter nonEmpty (Split data LF))).

(** ** A small cluster *)

(** One node, one framework and one running task of the application
    "webapp", with the node's state document in three variants: the
    task's executor listed as active, listed with an empty directory, and
    not reachable at all. *)
Definition webappTask : mstateTask.t :=
  {| mstateTask.ID := "webapp.1234abcd-5678"; mstateTask.Name := "webapp"; mstateTask.SlaveID := "S1";
     mstateTask.FrameworkID := "F1"; mstateTask.ExecutorID := "E1";
     mstateTask.Statuses := [mstateTaskStatus.mk 10; mstateTaskStatus.mk 20]; mstateTask.LastState := None |}.

Definition node1 : mstateSlave.t := mstateSlave.mk "S1" "node1.example" "slave(1)@10.0.0.5:5051".

Definition cluster : masterState :=
  {| Frameworks := [Framework.mk [webappTask] []]; Slaves := [node1] |}.

Definition client (searchCompleted latestOnly : bool) : MesosClient :=
  {| Host := "master.example"; Port := 5050; MasterURL := "http://master.example:5050";
     State := cluster;
     Options := {| SearchCompletedTasks := searchCompleted; ShowLatestOnly := latestOnly |} |}.

Definition sandbox : string := "/var/lib/mesos/slaves/S1/frameworks/F1/executors/E1/runs/latest".

Definition nodeState : slaveState.t :=
  slaveState.mk [SlaveFramework.mk "F1" [Executor.mk "E1" sandbox] []].

Definition nodeStateEmptyDirectory : slaveState.t :=
  slaveState.mk [SlaveFramework.mk "F1" [Executor.mk "E1" EmptyString] []].

Definition reachable (sstate : slaveState.t) (u : URL.t) : fetched slaveState.t :=
  Fetched sstate.

Definition unreachable (u : URL.t) : fetched slaveState.t :=
  Failed "connection refused".

(** A decoder for the examples: the whole answer is the data. *)
Definition dataOnly (resp : string) : readData := {| Data := resp; Offset := 0 |}.

Definition webappTailer : tailer :=
  {| tailTask := webappTask;
     tailInfo := slaveInfo.mk node1 nodeState sandbox;
     tailLog := STDOUT;
     tailDuration := 2 |}.

(** Three runs of "webapp": one last heard of at time 10, one at time 20,
    and one that has no status yet. *)
Definition webappRun (id : string) (statuses : list mstateTaskStatus.t) : mstateTask.t :=
  {| mstateTask.ID := id; mstateTask.Name := "webapp"; mstateTask.SlaveID := "S1";
     mstateTask.FrameworkID := "F1"; mstateTask.ExecutorID := "E1";
     mstateTask.Statuses := statuses; mstateTask.LastState := None |}.

Definition runOld : mstateTask.t := webappRun "webapp.aaaa-1" [mstateTaskStatus.mk 5; mstateTaskStatus.mk 10].
Definition runNew : mstateTask.t := webappRun "webapp.bbbb-2" [mstateTaskStatus.mk 20].
Definition runSilent : mstateTask.t := webappRun "webapp.cccc-3" [].

Definition threeRuns (searchCompleted latestOnly : bool) : MesosClient :=
  {| Host := "master.example"; Port := 5050; MasterURL := "http://master.example:5050";
     State := {| Frameworks := [Framework.mk [runSilent; runOld; runNew] []];
                 Slaves := [node1] |};
     Options := {| SearchCompletedTasks := searchCompleted; ShowLatestOnly := latestOnly |} |}.

(** An input channel that delivers the one chunk [n]. *)
Definition oneChunk (n : string) (cl : bool) : source := {| pending := [n]; closes := cl |}.

(** ** Application names from paths *)

Definition slash : ascii := "/"%char.

(** [strings.Join(elems, sep)]. *)
Fixpoint Join (elems : list string) (sep : string) : string :=
  match elems with
  | [] => EmptyString
  | [x] => x
  | x :: rest => x ++ sep ++ Join rest sep
  end.

(** [strings.HasPrefix(s, prefix)]. *)
Definition HasPrefix (s prefix : string) : bool := String.prefix prefix s.

(** [s[i], s[j] = s[j], s[i]] on a slice; indices out of range panic in
    Go, and the loop of [reversePath] never makes one. *)
Definition swap {A : Type} (i j : nat) (s : list A) : list A :=
  match nth_error s i, nth_error s j with
  | Some x, Some y => setNth i y (setNth j x s)
  | _, _ => s
  end.

(** The loop of [reversePath] from index [i] on, with [n] turns to go. *)
Fixpoint reversePathFrom (n i : nat) (s : list string) : list string :=
  match n with
  | O => s
  | S n' => reversePathFrom n' (S i) (swap i (List.length s - i - 1) s)
  end.

(** [reversePath] (lines 205-211): the turns are those of
    [i = 0 .. len(s)/2 - 1]. *)
Definition reversePath (s : list string) : list string :=
  reversePathFrom (List.length s / 2) 0 s.

(** [GetAppNameForPath] (lines 195-203).  [Split] never answers an empty
    slice, so [pathArr[1:]] is in range. *)
Definition GetAppNameForPath (path : string) : string :=
  let pathArr := Split path slash in
  let pathArr := if HasPrefix path "/" then skipn 1 pathArr else pathArr in
  let rpath := reversePath pathArr in
  Join rpath ".".

(** ** Application names of the cluster *)

(** Go's [map[string]int]: finite maps keyed by strings. *)
Module StringMap := FMapAVL.Make OrderedTypeEx.String_as_OT.
Module StringMapFacts := FMapFacts.WFacts_fun OrderedTypeEx.String_as_OT StringMap.
Module StringMapProps := FMapFacts.WProperties_fun OrderedTypeEx.String_as_OT StringMap.

(** [m[name]] of a Go map: the zero value for a missing key. *)
Definition valueOf (m : StringMap.t Z) (name : string) : Z :=
  match StringMap.find name m with
  | Some v => v
  | None => 0
  end.

(** [m[name]++]. *)
Definition increment (m : StringMap.t Z) (name : string) : StringMap.t Z :=
  StringMap.add name (GoInt.add (valueOf m name) 1) m.

(** [findApps] (lines 377-385). *)
Definition findApps (state : masterState) : StringMap.t Z :=
  fold_left
    (fun (m : StringMap.t Z) (framework : Framework.t) =>
       fold_left (fun (m : StringMap.t Z) (task : mstateTask.t) =>
                    increment m (mstateTask.Name task))
                 (Framework.Tasks framework) m)
    (Frameworks state)
    (StringMap.empty Z).

(** [GetAppNames] (lines 77-83); [findApps] never answers [nil]. *)
Definition GetAppNames (c : MesosClient) : result (StringMap.t Z) :=
  let apps := findApps (State c) in
  if Z.of_nat (StringMap.cardinal apps) =? 0
  then Err (Errorf "Applications could not be retrieved")
  else Ok apps.

(** The number of active tasks of the state that have the name. *)
Definition activeNamed (state : masterState) (name : string) : nat :=
  List.length (filter (fun task => (mstateTask.Name task =? name)%string)
                      (flat_map Framework.Tasks (Frameworks state))).

(** ** The application of a task *)

(** [GetAppNameForTaskID] (lines 178-193): the name of the first task of
    the group that [findTask] answers; [findTask] never answers [nil]. *)
Definition GetAppNameForTaskID (c : MesosClient) (taskID : string) : result string :=
  let ti := findTask (State c) taskID in
  if Bool.eqb (SearchCompletedTasks (Options c)) false
  then match taskInfo.Tasks ti with
       | task :: _ => Ok (mstateTask.Name task)
       | [] => Err (Errorf "application could not be found")
       end
  else match taskInfo.CompletedTasks ti with
       | task :: _ => Ok (mstateTask.Name task)
       | [] => Err (Errorf "application could not be found")
       end.

(** The task list of a framework that the client's [SearchCompletedTasks]
    option points [GetLog] and [GetAppNameForTaskID] at. *)
Definition groupOf (c : MesosClient) (framework : Framework.t) : list mstateTask.t :=
  if SearchCompletedTasks (Options c)
  then Framework.CompletedTasks framework
  else Framework.Tasks framework.

(** ** Fetching the logs *)

(** [LogOut] is declared outside [client.go]; [GetLog] builds it field by
    field. *)
Record LogOut : Type := { TaskID : string; AppID : string; Log : string }.

Section Fetching.

(** The network, the file system and the library, taken as given:
    [http.Get] and the body of its response, [ioutil.ReadAll] on such a
    body, [writeFile] (lines 484-499: it creates the directory and the
    file and copies the body into it, and answers the error of the step
    that failed, if any), [filepath.Join] on two elements, [getSlaveState]
    and [sort.Sort]. *)
Variable Body : Type.
Variable http_Get : string -> fetched Body.
Variable ioutil_ReadAll : Body -> fetched string.
Variable writeFile : string -> Body -> option string.
Variable filepath_Join : string -> string -> string.
Variable getSlaveState : URL.t -> fetched slaveState.t.
Variable sort_Sort :
  (mstateTask.t -> mstateTask.t -> bool) -> list mstateTask.t -> list mstateTask.t.

(** [download] (lines 464-482). *)
Definition download (slaveURL filename : string) : result string :=
  match http_Get slaveURL with
  | Failed msg => Err (External msg)
  | Fetched body =>
      if negb (filename =? "")%string
      then match writeFile filename body with
           | Some msg => Err (External msg)
           | None => Ok filename
           end
      else match ioutil_ReadAll body with
           | Failed msg => Err (External msg)
           | Fetched data => Ok data
           end
  end.

(** The URL of line 114. *)
Definition downloadURL (info : slaveInfo.t) : string :=
  "http://" ++ mstateSlave.Hostname (slaveInfo.Slave info)
  ++ ":5051/files/download.json?path=" ++ slaveInfo.Directory info ++ "/".

(** The file name of lines 116-119: empty unless a directory is given. *)
Definition logFile (dir : string) (task : mstateTask.t) (logtype : LogType) : string :=
  if negb (dir =? "")%string
  then filepath_Join dir (mstateTask.ID task ++ "_" ++ LogType_String logtype ++ ".txt")
  else EmptyString.

(** One turn of the loop of lines 108-125: the [LogOut] it appends, or
    the error it returns. *)
Definition fetchLog (c : MesosClient) (appID : string) (logtype : LogType) (dir : string)
           (task : mstateTask.t) : result LogOut :=
  match getSlaveInfo getSlaveState c task with
  | Err err => Err err
  | Ok info =>
      let url := downloadURL info in
      let filename := logFile dir task logtype in
      match download (url ++ LogType_String logtype) filename with
      | Err err => Err err
      | Ok data => Ok {| TaskID := mstateTask.ID task; AppID := appID; Log := data |}
      end
  end.

Fixpoint GetLog_loop (c : MesosClient) (appID : string) (logtype : LogType) (dir : string)
         (tasks : list mstateTask.t) (logs : list LogOut) : result (list LogOut) :=
  match tasks with
  | [] => Ok logs
  | task :: rest =>
      match fetchLog c appID logtype dir task with
      | Err err => Err err
      | Ok log => GetLog_loop c appID logtype dir rest (logs ++ [log])
      end
  end.

(** [GetLog] (lines 89-127). *)
Definition GetLog (c : MesosClient) (appID : string) (logtype : LogType) (dir : string)
  : result (list LogOut) :=
  match GetLog_tasks sort_Sort c appID with
  | Err err => Err err
  | Ok tasks => GetLog_loop c appID logtype dir tasks []
  end.

End Fetching.

(** A network for the examples: every URL answers its own text, and files
    are written without fail under [dir/name]. *)
Definition echo (url : string) : fetched string := Fetched url.
Definition readBody (body : string) : fetched string := Fetched body.
Definition writeOk (filename body : string) : option string := None.
Definition joinPath (dir name : string) : string := dir ++ "/" ++ name.

(** ** What a tailer has read and sent *)

(** The payloads that make the tailer send: those of the fetched answers
    that have 5 bytes or more, in order. *)
Definition emitted (unmarshal : string -> readData) (resps : list (fetched string))
  : list string :=
  flat_map (fun resp =>
              match resp with
              | Fetched body =>
                  if len (Data (unmarshal body)) <? 5 then [] else [Data (unmarshal body)]
              | Failed _ => []
              end)
           resps.

(** The chunks sent on the tailer's channel, in order. *)
Definition sent (acts : list action) : list string :=
  flat_map (fun act =>
              match act with
              | Send chunk => [chunk]
              | _ => []
              end)
           acts.

(** The bytes of a list of payloads. *)
Definition totalLen (payloads : list string) : Z :=
  fold_right (fun payload n => len payload + n) 0 payloads.

(** What the tailer does about one failed request. *)
Definition retry (t : tailer) (offset : Z) (msg : string) : list action :=
  [HttpGet (tailURL t offset); Printf ("Error: " ++ msg)].

(** A tailer on a task whose id has no ['.']. *)
Definition plainIdTailer : tailer :=
  {| tailTask := webappRun "webapp" [];
     tailInfo := slaveInfo.mk node1 nodeState sandbox;
     tailLog := STDOUT;
     tailDuration := 2 |}.

(** Four answers: a line, a short payload, a failure and a line. *)
Definition fourAnswers : list (fetched string) :=
  [Fetched ("line1" ++ str LF); Fetched "ab"; Failed "connection reset"; Fetched "line2!"].

(** ** What the merged channel delivers, by input *)

(** One more value handed over by goroutine [i]. *)
Definition handOver (handed : nat -> nat) (i : nat) : nat -> nat :=
  fun j => if Nat.eqb j i then S (handed j) else handed j.

(** The values a schedule delivers if every goroutine hands over the
    values of its own input in the order of that input: the [k]-th
    hand-over of goroutine [i] is the [k]-th value of input [i].
    [handed] counts the hand-overs made before the schedule. *)
Fixpoint inInputOrder (cs : list source) (handed : nat -> nat) (schedule : list move)
  : list (option string) :=
  match schedule with
  | [] => []
  | Forward i :: rest =>
      match nth_error cs i with
      | Some c => nth_error (pending c) (handed i)
      | None => None
      end :: inInputOrder cs (handOver handed i) rest
  | _ :: rest => inInputOrder cs handed rest
  end.

(** A goroutine of [merge] in step with its input [c], of which it has
    handed over [k] values. *)
Definition inStep (c : source) (k : nat) (p : source * forwarder) : Prop :=
  closes (fst p) = closes c
  /\ match snd p with
     | Receiving => pending (fst p) = skipn k (pending c)
     | Sending n => n :: pending (fst p) = skipn k (pending c)
     | Finished => closes c = true
     end.

(** A state of [merge] in step with the inputs [cs]: every goroutine is in
    step with its input, and [out] is closed only when all are done. *)
Definition inStepWith (cs : list source) (handed : nat -> nat) (st : merged) : Prop :=
  List.length (inputs st) = List.length cs
  /\ (forall i c p,
         nth_error cs i = Some c -> nth_error (inputs st) i = Some p ->
         inStep c (handed i) p)
  /\ (outClosed st = true -> forallb isFinished (inputs st) = true).

(** * Properties *)

(** ** Strings *)

Lemma len_nonneg (s : string) : 0 <= len s.
Proof. unfold len. lia. Qed.

Lemma len_app (a b : string) : len (a ++ b) = len a + len b.
Proof.
  unfold len. induction a as [|c a IH]; simpl String.length.
  - lia.
  - simpl in IH. lia.
Qed.

Lemma len_String (c : ascii) (s : string) : len (String c s) = 1 + len s.
Proof. unfold len. simpl String.length. lia. Qed.

Lemma hasByte_app (c : ascii) (a b : string) :
  hasByte c (a ++ b) = hasByte c a || hasByte c b.
Proof.
  induction a as [|x a IH]; simpl.
  - reflexivity.
  - rewrite IH. now rewrite orb_assoc.
Qed.

(** A string that has the byte [c] splits at its first [c]. *)
Lemma hasByte_split (c : ascii) (s : string) :
  hasByte c s = true ->
  exists p r, s = p ++ String c r /\ hasByte c p = false.
Proof.
  induction s as [|a s IH]; simpl; intros H.
  - discriminate.
  - destruct (Ascii.eqb a c) eqn:E.
    + apply Ascii.eqb_eq in E. subst a.
      exists EmptyString, s. split; reflexivity.
    + simpl in H. destruct (IH H) as (p & r & -> & Hp).
      exists (String a p), r. split; [reflexivity|].
      simpl. now rewrite E.
Qed.

Lemma prefix_str (c a : ascii) (s : string) :
  String.prefix (str c) (String a s) = Ascii.eqb a c.
Proof.
  unfold str. simpl. destruct (ascii_dec c a) as [->|N].
  - rewrite Ascii.eqb_refl. now destruct s.
  - symmetry. apply Ascii.eqb_neq. congruence.
Qed.

Lemma indexFrom_absent (c : ascii) (s : string) (i : Z) :
  hasByte c s = false -> indexFrom (str c) s i = -1.
Proof.
  revert i. induction s as [|a s IH]; intros i H.
  - reflexivity.
  - simpl in H. apply orb_false_iff in H as [Ha Hs].
    unfold indexFrom; fold indexFrom. rewrite prefix_str, Ha. now apply IH.
Qed.

Lemma indexFrom_first (c : ascii) (p r : string) (i : Z) :
  hasByte c p = false -> indexFrom (str c) (p ++ String c r) i = i + len p.
Proof.
  revert i. induction p as [|a p IH]; intros i H.
  - change (EmptyString ++ String c r) with (String c r).
    unfold indexFrom; fold indexFrom.
    rewrite prefix_str, Ascii.eqb_refl. unfold len. simpl. lia.
  - simpl in H. apply orb_false_iff in H as [Ha Hp].
    change (String a p ++ String c r) with (String a (p ++ String c r)).
    unfold indexFrom; fold indexFrom.
    rewrite prefix_str, Ha, IH by assumption. rewrite len_String. lia.
Qed.

Lemma Index_absent (c : ascii) (s : string) :
  hasByte c s = false -> Index s (str c) = -1.
Proof. apply indexFrom_absent. Qed.

Lemma Index_first (c : ascii) (p r : string) :
  hasByte c p = false -> Index (p ++ String c r) (str c) = len p.
Proof. intros H. unfold Index. now rewrite indexFrom_first. Qed.

Lemma substring_prefix (p r : string) :
  String.substring 0 (String.length p) (p ++ r) = p.
Proof.
  induction p as [|a p IH]; simpl.
  - now destruct r.
  - now rewrite IH.
Qed.

Lemma substring_all (s : string) : String.substring 0 (String.length s) s = s.
Proof. induction s as [|a s IH]; simpl; [reflexivity | now rewrite IH]. Qed.

Lemma substring_suffix (p r : string) :
  String.substring (String.length p) (String.length r) (p ++ r) = r.
Proof.
  induction p as [|a p IH]; simpl.
  - apply substring_all.
  - exact IH.
Qed.

Lemma slice_prefix (p r : string) : slice (p ++ r) 0 (len p) = Some p.
Proof.
  unfold slice. rewrite len_app.
  pose proof (len_nonneg p). pose proof (len_nonneg r).
  replace ((0 <=? 0) && (0 <=? len p) && (len p <=? len p + len r)) with true
    by (symmetry; rewrite !andb_true_iff, !Z.leb_le; lia).
  rewrite Z.sub_0_r. unfold len. rewrite Nat2Z.id. simpl Z.to_nat.
  now rewrite substring_prefix.
Qed.

Lemma sliceFrom_suffix (p r : string) : sliceFrom (p ++ r) (len p) = Some r.
Proof.
  unfold sliceFrom, slice. rewrite len_app.
  pose proof (len_nonneg p). pose proof (len_nonneg r).
  replace ((0 <=? len p) && (len p <=? len p + len r) && (len p + len r <=? len p + len r))
    with true by (symmetry; rewrite !andb_true_iff, !Z.leb_le; lia).
  replace (len p + len r - len p) with (len r) by lia.
  unfold len. rewrite !Nat2Z.id. now rewrite substring_suffix.
Qed.

Lemma slice_negative (s : string) (lo : Z) : slice s lo (-1) = None.
Proof.
  unfold slice. destruct (0 <=? lo) eqn:E1; [|reflexivity].
  destruct (lo <=? -1) eqn:E2; [|reflexivity].
  apply Z.leb_le in E1, E2. lia.
Qed.

(** ** Log decoration *)

Lemma app_assoc_string (a b c : string) : ((a ++ b) ++ c = a ++ (b ++ c))%string.
Proof. induction a as [|x a IH]; simpl; [reflexivity | now rewrite IH]. Qed.

Lemma app_empty_r (a : string) : (a ++ "")%string = a.
Proof. induction a as [|x a IH]; simpl; [reflexivity | now rewrite IH]. Qed.

Lemma len_pos_nonEmpty (l : string) : (0 <? len l) = nonEmpty l.
Proof.
  destruct l as [|a l]; [reflexivity|].
  rewrite len_String. pose proof (len_nonneg l).
  unfold nonEmpty. change (negb (String a l =? "")%string) with true.
  apply Z.ltb_lt. lia.
Qed.

(** The buffer after the loop of lines 273-277 is what it held before,
    followed by the decorated lines. *)
Lemma writeLine_fold (dec : string) (lines : list string) (buf : string) :
  fold_left (writeLine dec) lines buf
  = (buf ++ fold_right append EmptyString
              (map (fun l => "[" ++ dec ++ "] " ++ l ++ str LF) (filter nonEmpty lines)))%string.
Proof.
  revert buf. induction lines as [|l lines IH]; intros buf; cbn [fold_left filter].
  - cbn [map fold_right]. now rewrite app_empty_r.
  - rewrite IH. unfold writeLine. rewrite len_pos_nonEmpty.
    destruct (nonEmpty l); cbn [map fold_right]; [|reflexivity].
    now rewrite app_assoc_string.
Qed.

(** [decorateLog] on an identifier of the expected shape. *)
Lemma decorateLog_shape (p s rest data : string) :
  hasByte dot p = false -> hasByte dash s = false ->
  decorateLog (p ++ "." ++ s ++ "-" ++ rest) data = Some (decorated (p ++ "." ++ s) data).
Proof.
  intros Hp Hs. unfold decorateLog.
  change ("." ++ s ++ "-" ++ rest)%string with (String dot (s ++ String dash rest)).
  rewrite (Index_first dot p _ Hp), slice_prefix.
  replace (p ++ String dot (s ++ String dash rest))%string
    with ((p ++ str dot) ++ (s ++ String dash rest))%string
    by (rewrite app_assoc_string; reflexivity).
  replace (len p + 1) with (len (p ++ str dot))
    by (rewrite len_app; unfold str; rewrite len_String; reflexivity).
  rewrite sliceFrom_suffix, (Index_first dash s _ Hs), slice_prefix.
  rewrite writeLine_fold. reflexivity.
Qed.

(** An identifier without ['.'], or without ['-'] after its first ['.'],
    makes [decorateLog] panic. *)
Lemma decorateLog_no_dot (name data : string) :
  hasByte dot name = false -> decorateLog name data = None.
Proof.
  intros H. unfold decorateLog. rewrite (Index_absent dot name H).
  now rewrite slice_negative.
Qed.

Lemma decorateLog_no_dash_after (p r data : string) :
  hasByte dot p = false -> hasByte dash r = false ->
  decorateLog (p ++ String dot r) data = None.
Proof.
  intros Hp Hr. unfold decorateLog.
  rewrite (Index_first dot p _ Hp), slice_prefix.
  replace (p ++ String dot r)%string with ((p ++ str dot) ++ r)%string
    by (rewrite app_assoc_string; reflexivity).
  replace (len p + 1) with (len (p ++ str dot))
    by (rewrite len_app; unfold str; rewrite len_String; reflexivity).
  rewrite sliceFrom_suffix, (Index_absent dash r Hr).
  now rewrite slice_negative.
Qed.

(** C5. [decorateLog] on the task id "webapp.1234abcd-5678" and the payload
    "line1\nline2\n" gives "[webapp.1234abcd] line1\n[webapp.1234abcd] line2\n";
    and for every task id [p.s-rest], where [p] is the text before the
    first ['.'] and [s] the text of the remainder before its first ['-'],
    the result is the payload with its empty lines dropped and each other
    line prefixed with "[p.s] " and ended by a line feed. *)
Theorem decorateLog_decorates :
  decorateLog "webapp.1234abcd-5678" ("line1" ++ str LF ++ "line2" ++ str LF)
  = Some ("[webapp.1234abcd] line1" ++ str LF ++ "[webapp.1234abcd] line2" ++ str LF)
  /\
  forall p s rest data : string,
    hasByte dot p = false ->
    hasByte dash s = false ->
    decorateLog (p ++ "." ++ s ++ "-" ++ rest) data
    = Some (fold_right append EmptyString
              (map (fun l => "[" ++ p ++ "." ++ s ++ "] " ++ l ++ str LF)
                   (filter nonEmpty (Split data LF)))).
Proof.
  split.
  - reflexivity.
  - intros p s rest data Hp Hs.
    rewrite (decorateLog_shape p s rest data Hp Hs). unfold decorated.
    do 2 f_equal. 
    apply map_ext. intros l. now rewrite !app_assoc_string.
Qed.

(** C6. [decorateLog] returns (no slice expression is out of range) on
    every task id that has a ['.'] and a ['-'] in what follows its first
    ['.']; on every task id without ['.'] or without ['-'] it panics. *)
Theorem decorateLog_defined (name data : string) :
  (forall p r : string,
      name = (p ++ "." ++ r)%string ->
      hasByte dot p = false ->
      hasByte dash r = true ->
      exists out, decorateLog name data = Some out)
  /\
  (hasByte dot name = false \/ hasByte dash name = false ->
   decorateLog name data = None).
Proof.
  split.
  - intros p r -> Hp Hr.
    destruct (hasByte_split dash r Hr) as (s & rest & -> & Hs).
    exists (decorated (p ++ "." ++ s) data).
    exact (decorateLog_shape p s rest data Hp Hs).
  - intros H.
    destruct (hasByte dot name) eqn:Hdot.
    + destruct H as [H|H]; [discriminate|].
      destruct (hasByte_split dot name Hdot) as (p & r & -> & Hp).
      rewrite hasByte_app in H. apply orb_false_iff in H as [_ H].
      cbn [hasByte] in H. apply orb_false_iff in H as [_ H].
      now apply decorateLog_no_dash_after.
    + now apply decorateLog_no_dot.
Qed.

Lemma decorateLog_decorates_witness :
  decorateLog ("api" ++ "." ++ "9f3c" ++ "-" ++ "1700000000") ("GET /" ++ str LF ++ str LF ++ "200 OK")
  = Some ("[api.9f3c] GET /" ++ str LF ++ "[api.9f3c] 200 OK" ++ str LF).
Proof.
  exact (proj2 decorateLog_decorates "api" "9f3c" "1700000000"
               ("GET /" ++ str LF ++ str LF ++ "200 OK") eq_refl eq_refl).
Defined.

Lemma decorateLog_defined_witness :
  (exists out, decorateLog "webapp.1234abcd-5678" "line1" = Some out)
  /\ decorateLog "webapp" "line1" = None
  /\ decorateLog "webapp.1234abcd" "line1" = None.
Proof.
  split; [|split].
  - exact (proj1 (decorateLog_defined "webapp.1234abcd-5678" "line1")
                 "webapp" "1234abcd-5678" eq_refl eq_refl eq_refl).
  - exact (proj2 (decorateLog_defined "webapp" "line1") (or_introl eq_refl)).
  - exact (proj2 (decorateLog_defined "webapp.1234abcd" "line1") (or_intror eq_refl)).
Defined.

(** ** Task lookup *)

Lemma matchesApp_iff (appID : string) (task : mstateTask.t) :
  matchesApp appID task = true <-> mstateTask.ID task = appID \/ mstateTask.Name task = appID.
Proof.
  unfold matchesApp. rewrite orb_true_iff, !String.eqb_eq. tauto.
Qed.

Lemma withLastState_ID (task : mstateTask.t) : mstateTask.ID (withLastState task) = mstateTask.ID task.
Proof. reflexivity. Qed.

Lemma withLastState_Name (task : mstateTask.t) : mstateTask.Name (withLastState task) = mstateTask.Name task.
Proof. reflexivity. Qed.

Lemma matchesApp_withLastState (appID : string) (task : mstateTask.t) :
  matchesApp appID (withLastState task) = matchesApp appID task.
Proof. reflexivity. Qed.

(** The inner loops append the matching tasks, in order. *)
Lemma collect_fold (appID : string) (tasks acc : list mstateTask.t) :
  fold_left (collect appID) tasks acc
  = (acc ++ map withLastState (filter (matchesApp appID) tasks))%list.
Proof.
  revert acc. induction tasks as [|task tasks IH]; intros acc; cbn [fold_left filter].
  - cbn [map]. now rewrite app_nil_r.
  - rewrite IH. unfold collect.
    destruct (matchesApp appID task); cbn [map]; [|reflexivity].
    now rewrite <- app_assoc.
Qed.

(** The outer loop, from any pair of lists built so far. *)
Lemma findTask_fold (appID : string) (frameworks : list Framework.t)
      (active completed : list mstateTask.t) :
  fold_left
    (fun (ti : taskInfo.t) (framework : Framework.t) =>
       let ti :=
         taskInfo.mk (fold_left (collect appID) (Framework.Tasks framework) (taskInfo.Tasks ti))
                     (taskInfo.CompletedTasks ti) in
       taskInfo.mk (taskInfo.Tasks ti)
                   (fold_left (collect appID) (Framework.CompletedTasks framework)
                              (taskInfo.CompletedTasks ti)))
    frameworks (taskInfo.mk active completed)
  = taskInfo.mk
      (active ++ map withLastState
                     (filter (matchesApp appID) (flat_map Framework.Tasks frameworks)))%list
      (completed ++ map withLastState
                        (filter (matchesApp appID)
                                (flat_map Framework.CompletedTasks frameworks)))%list.
Proof.
  revert active completed.
  induction frameworks as [|fw frameworks IH]; intros active completed; cbn [fold_left flat_map].
  - cbn [filter map]. now rewrite !app_nil_r.
  - cbn [taskInfo.Tasks taskInfo.CompletedTasks]. rewrite IH, !collect_fold.
    rewrite !filter_app, !map_app, !app_assoc. reflexivity.
Qed.

Lemma findTask_Tasks (state : masterState) (appID : string) :
  taskInfo.Tasks (findTask state appID)
  = map withLastState
        (filter (matchesApp appID) (flat_map Framework.Tasks (Frameworks state))).
Proof. unfold findTask. now rewrite findTask_fold. Qed.

Lemma findTask_CompletedTasks (state : masterState) (appID : string) :
  taskInfo.CompletedTasks (findTask state appID)
  = map withLastState
        (filter (matchesApp appID) (flat_map Framework.CompletedTasks (Frameworks state))).
Proof. unfold findTask. now rewrite findTask_fold. Qed.

Lemma in_selected (appID : string) (frameworks : list Framework.t)
      (proj : Framework.t -> list mstateTask.t) (t : mstateTask.t) :
  In t (map withLastState (filter (matchesApp appID) (flat_map proj frameworks)))
  <-> exists fw t0,
      In fw frameworks /\ In t0 (proj fw)
      /\ (mstateTask.ID t0 = appID \/ mstateTask.Name t0 = appID)
      /\ t = withLastState t0.
Proof.
  rewrite in_map_iff. split.
  - intros (t0 & <- & Hin). apply filter_In in Hin as [Hin Hm].
    apply in_flat_map in Hin as (fw & Hfw & Ht0).
    exists fw, t0. rewrite <- matchesApp_iff. auto.
  - intros (fw & t0 & Hfw & Ht0 & Hm & ->).
    exists t0. split; [reflexivity|].
    apply filter_In. split.
    + apply in_flat_map. eauto.
    + now apply matchesApp_iff.
Qed.

(** C1. [findTask] returns exactly the tasks whose id or name is the
    identifier: its active group is the matching tasks of the frameworks'
    active lists (in the order of the state document), its completed group
    the matching tasks of their completed lists, and no task of either
    group fails to match. *)
Theorem findTask_exact (state : masterState) (appID : string) :
  (taskInfo.Tasks (findTask state appID)
   = map withLastState
         (filter (matchesApp appID) (flat_map Framework.Tasks (Frameworks state))))
  /\ (taskInfo.CompletedTasks (findTask state appID)
      = map withLastState
            (filter (matchesApp appID)
                    (flat_map Framework.CompletedTasks (Frameworks state))))
  /\ (forall t : mstateTask.t,
         In t (taskInfo.Tasks (findTask state appID))
         <-> exists fw t0,
             In fw (Frameworks state) /\ In t0 (Framework.Tasks fw)
             /\ (mstateTask.ID t0 = appID \/ mstateTask.Name t0 = appID)
             /\ t = withLastState t0)
  /\ (forall t : mstateTask.t,
         In t (taskInfo.CompletedTasks (findTask state appID))
         <-> exists fw t0,
             In fw (Frameworks state) /\ In t0 (Framework.CompletedTasks fw)
             /\ (mstateTask.ID t0 = appID \/ mstateTask.Name t0 = appID)
             /\ t = withLastState t0)
  /\ (forall t : mstateTask.t,
         In t (taskInfo.Tasks (findTask state appID))
         \/ In t (taskInfo.CompletedTasks (findTask state appID)) ->
         mstateTask.ID t = appID \/ mstateTask.Name t = appID).
Proof.
  rewrite findTask_Tasks, findTask_CompletedTasks.
  split; [reflexivity|]. split; [reflexivity|].
  split; [intros t; apply in_selected|].
  split; [intros t; apply in_selected|].
  intros t [H|H]; apply in_selected in H as (fw & t0 & _ & _ & Hm & ->);
    rewrite withLastState_ID, withLastState_Name; exact Hm.
Qed.

(** ** The node's state-query URL *)

Lemma cut_absent (c : ascii) (s : string) : hasByte c s = false -> cut s c = None.
Proof.
  induction s as [|a s IH]; cbn [hasByte cut]; intros H.
  - reflexivity.
  - apply orb_false_iff in H as [Ha Hs]. now rewrite Ha, IH.
Qed.

Lemma cut_first (c : ascii) (p r : string) :
  hasByte c p = false -> cut (p ++ String c r) c = Some (p, r).
Proof.
  induction p as [|a p IH]; intros H.
  - change (EmptyString ++ String c r)%string with (String c r).
    cbn [cut]. now rewrite Ascii.eqb_refl.
  - cbn [hasByte] in H. apply orb_false_iff in H as [Ha Hp].
    change (String a p ++ String c r)%string with (String a (p ++ String c r)).
    cbn [cut]. now rewrite Ha, IH.
Qed.

Lemma Split_absent (c : ascii) (s : string) : hasByte c s = false -> Split s c = [s].
Proof.
  induction s as [|a s IH]; cbn [hasByte Split]; intros H.
  - reflexivity.
  - apply orb_false_iff in H as [Ha Hs]. now rewrite Ha, IH.
Qed.

Lemma Split_first (c : ascii) (p r : string) :
  hasByte c p = false -> Split (p ++ String c r) c = p :: Split r c.
Proof.
  induction p as [|a p IH]; intros H.
  - change (EmptyString ++ String c r)%string with (String c r).
    cbn [Split]. now rewrite Ascii.eqb_refl.
  - cbn [hasByte] in H. apply orb_false_iff in H as [Ha Hp].
    change (String a p ++ String c r)%string with (String a (p ++ String c r)).
    cbn [Split]. now rewrite Ha, IH.
Qed.

(** The first piece of a split is the text before the first separator. *)
Lemma Split_head (c : ascii) (s : string) :
  exists pieces, Split s c = beforeByte c s :: pieces.
Proof.
  induction s as [|a s [pieces IH]]; cbn [Split beforeByte].
  - now exists [].
  - destruct (Ascii.eqb a c).
    + now exists (Split s c).
    + rewrite IH. now exists pieces.
Qed.

Lemma beforeByte_absent (c : ascii) (s : string) :
  hasByte c s = false -> beforeByte c s = s.
Proof.
  induction s as [|a s IH]; cbn [hasByte beforeByte]; intros H.
  - reflexivity.
  - apply orb_false_iff in H as [Ha Hs]. now rewrite Ha, IH.
Qed.

(** [constructSlaveURL] on a locator [name@rest]. *)
Lemma constructSlaveURL_at (slave : mstateSlave.t) (name rest : string) :
  mstateSlave.Pid slave = (name ++ "@" ++ rest)%string ->
  hasByte at_sign name = false ->
  constructSlaveURL slave
  = Ok (URL.mk "http"
               (mstateSlave.Hostname slave ++ ":" ++ portOf rest)
               ("//" ++ (mstateSlave.Hostname slave ++ ":" ++ portOf rest)
                     ++ "/" ++ (name ++ "/state.json"))).
Proof.
  intros Hpid Hname. unfold constructSlaveURL, SplitN2. rewrite Hpid.
  change ("@" ++ rest)%string with (String at_sign rest).
  rewrite (cut_first at_sign name rest Hname).
  cbn [List.length nth Z.of_nat Z.ltb Z.compare Pos.of_succ_nat Pos.succ Pos.compare Pos.compare_cont].
  unfold portOf.
  destruct (Split rest colon) as [|h [|port pieces]]; try reflexivity.
  replace (1 <? Z.of_nat (List.length (h :: port :: pieces))) with true; [reflexivity|].
  symmetry. apply Z.ltb_lt. cbn [List.length]. lia.
Qed.

Lemma portOf_no_colon (rest : string) : hasByte colon rest = false -> portOf rest = "80".
Proof. intros H. unfold portOf. now rewrite Split_absent. Qed.

Lemma portOf_colon (host tail : string) :
  hasByte colon host = false ->
  portOf (host ++ ":" ++ tail) = beforeByte colon tail.
Proof.
  intros H. unfold portOf.
  change (":" ++ tail)%string with (String colon tail).
  rewrite (Split_first colon host tail H).
  destruct (Split_head colon tail) as [pieces ->]. reflexivity.
Qed.

(** C8. For a node whose locator is [name@rest], [name] being the text
    before the first ['@'], the URL that [constructSlaveURL] builds has as
    its host the node's [Hostname] joined by [':'] with the port, and as its
    path [name] followed by "/state.json"; the port is "80" when [rest] has
    no [':'], and otherwise the text after the first [':'] of [rest] (up
    to the next [':'], if any).  The host text of the locator is not used:
    another host text in its place gives the same URL. *)
Theorem constructSlaveURL_address (slave : mstateSlave.t) (name rest : string) :
  mstateSlave.Pid slave = (name ++ "@" ++ rest)%string ->
  hasByte at_sign name = false ->
  exists port : string,
    constructSlaveURL slave
    = Ok (URL.mk "http"
                 (mstateSlave.Hostname slave ++ ":" ++ port)
                 ("//" ++ (mstateSlave.Hostname slave ++ ":" ++ port)
                       ++ "/" ++ (name ++ "/state.json")))
    /\ (hasByte colon rest = false -> port = "80")
    /\ (forall host tail : string,
           rest = (host ++ ":" ++ tail)%string ->
           hasByte colon host = false ->
           port = beforeByte colon tail
           /\ (hasByte colon tail = false -> port = tail)
           /\ forall host' : string,
               hasByte colon host' = false ->
               constructSlaveURL
                 (mstateSlave.mk (mstateSlave.ID slave) (mstateSlave.Hostname slave)
                           (name ++ "@" ++ host' ++ ":" ++ tail))
               = constructSlaveURL slave).
Proof.
  intros Hpid Hname. exists (portOf rest).
  split; [now apply constructSlaveURL_at|].
  split; [apply portOf_no_colon|].
  intros host tail -> Hhost.
  split; [now apply portOf_colon|].
  split.
  - intros Htail. rewrite (portOf_colon host tail Hhost).
    now apply beforeByte_absent.
  - intros host' Hhost'.
    rewrite (constructSlaveURL_at slave name (host ++ ":" ++ tail) Hpid Hname).
    rewrite (constructSlaveURL_at
               (mstateSlave.mk (mstateSlave.ID slave) (mstateSlave.Hostname slave)
                         (name ++ "@" ++ host' ++ ":" ++ tail))
               name (host' ++ ":" ++ tail) eq_refl Hname).
    cbn [mstateSlave.Hostname].
    now rewrite !portOf_colon.
Qed.

Lemma constructSlaveURL_address_witness :
  exists port : string,
    constructSlaveURL (mstateSlave.mk "S1" "node1.example" "slave(1)@10.0.0.5:5051")
    = Ok (URL.mk "http"
                 ("node1.example" ++ ":" ++ port)
                 ("//" ++ ("node1.example" ++ ":" ++ port)
                       ++ "/" ++ ("slave(1)" ++ "/state.json")))
    /\ (hasByte colon "10.0.0.5:5051" = false -> port = "80")
    /\ (forall host tail : string,
           "10.0.0.5:5051" = (host ++ ":" ++ tail)%string ->
           hasByte colon host = false ->
           port = beforeByte colon tail
           /\ (hasByte colon tail = false -> port = tail)
           /\ forall host' : string,
               hasByte colon host' = false ->
               constructSlaveURL
                 (mstateSlave.mk "S1" "node1.example" ("slave(1)" ++ "@" ++ host' ++ ":" ++ tail))
               = constructSlaveURL (mstateSlave.mk "S1" "node1.example" "slave(1)@10.0.0.5:5051")).
Proof.
  apply (constructSlaveURL_address
           (mstateSlave.mk "S1" "node1.example" "slave(1)@10.0.0.5:5051")
           "slave(1)" "10.0.0.5:5051"); reflexivity.
Defined.

Example constructSlaveURL_node1 :
  constructSlaveURL (mstateSlave.mk "S1" "node1.example" "slave(1)@10.0.0.5:5051")
  = Ok (URL.mk "http" "node1.example:5051" "//node1.example:5051/slave(1)/state.json").
Proof. reflexivity. Qed.

Example constructSlaveURL_default_port :
  constructSlaveURL (mstateSlave.mk "S1" "node1.example" "slave(1)@10.0.0.5")
  = Ok (URL.mk "http" "node1.example:80" "//node1.example:80/slave(1)/state.json").
Proof. reflexivity. Qed.

Example constructSlaveURL_no_at :
  constructSlaveURL (mstateSlave.mk "S1" "node1.example" "10.0.0.5:5051")
  = Err (MalformedAddress "10.0.0.5:5051").
Proof. reflexivity. Qed.

(** ** Sandbox resolution *)

Lemma Err_inj (A : Type) (e1 e2 : error) : @Err A e1 = Err e2 -> e1 = e2.
Proof. intros H. now injection H. Qed.

(** The three errors of [getSlaveInfo] are three different errors. *)
Lemma MalformedAddress_not_NodeNotFound (pid : string) : MalformedAddress pid <> NodeNotFound.
Proof. unfold MalformedAddress, NodeNotFound. cbn [append]. discriminate. Qed.

Lemma MalformedAddress_not_DirectoryNotFound (pid : string) :
  MalformedAddress pid <> DirectoryNotFound.
Proof. unfold MalformedAddress, DirectoryNotFound. cbn [append]. discriminate. Qed.

Lemma DirectoryNotFound_not_NodeNotFound : DirectoryNotFound <> NodeNotFound.
Proof. discriminate. Qed.

Lemma findSlave_None_iff (state : masterState) (slaveID : string) :
  findSlave state slaveID = None
  <-> forall slave, In slave (Slaves state) -> mstateSlave.ID slave <> slaveID.
Proof.
  unfold findSlave. split.
  - intros H slave Hin. apply String.eqb_neq.
    exact (find_none _ _ H slave Hin).
  - intros H. destruct (find _ _) as [slave|] eqn:E; [|reflexivity].
    apply find_some in E as [Hin Heq]. apply String.eqb_eq in Heq.
    now destruct (H slave Hin).
Qed.

Lemma findSlave_Some (state : masterState) (slaveID : string) (slave : mstateSlave.t) :
  findSlave state slaveID = Some slave ->
  In slave (Slaves state) /\ mstateSlave.ID slave = slaveID.
Proof.
  unfold findSlave. intros E. apply find_some in E as [Hin Heq].
  now apply String.eqb_eq in Heq.
Qed.

(** [constructSlaveURL] fails on the locators without ['@'] and on no
    other. *)
Lemma constructSlaveURL_cases (slave : mstateSlave.t) :
  (hasByte at_sign (mstateSlave.Pid slave) = false
   /\ constructSlaveURL slave = Err (MalformedAddress (mstateSlave.Pid slave)))
  \/ (hasByte at_sign (mstateSlave.Pid slave) = true
      /\ exists slaveURL, constructSlaveURL slave = Ok slaveURL).
Proof.
  destruct (hasByte at_sign (mstateSlave.Pid slave)) eqn:E.
  - right. split; [reflexivity|].
    destruct (hasByte_split _ _ E) as (name & rest & Hpid & Hname).
    eexists. exact (constructSlaveURL_at slave name rest Hpid Hname).
  - left. split; [reflexivity|].
    unfold constructSlaveURL, SplitN2. now rewrite (cut_absent _ _ E).
Qed.

Lemma findDirectoryIn_first (frameworks : list SlaveFramework.t) (task : mstateTask.t)
      (completedTasks : bool) :
  findDirectoryIn frameworks task completedTasks
  = match firstExecutorIn frameworks task completedTasks with
    | Some executor => Executor.Directory executor
    | None => EmptyString
    end.
Proof.
  induction frameworks as [|fw frameworks IH]; cbn [findDirectoryIn firstExecutorIn].
  - reflexivity.
  - destruct (negb _); [exact IH|].
    destruct (find _ _); [reflexivity | exact IH].
Qed.

Lemma firstExecutorIn_None_iff (frameworks : list SlaveFramework.t) (task : mstateTask.t)
      (completedTasks : bool) :
  firstExecutorIn frameworks task completedTasks = None
  <-> forall fw ex,
      In fw frameworks ->
      SlaveFramework.ID fw = mstateTask.FrameworkID task ->
      In ex (executorsOf completedTasks fw) ->
      matchesExecutor task ex = false.
Proof.
  induction frameworks as [|fw frameworks IH]; cbn [firstExecutorIn].
  - split; [intros _ fw ex [] | reflexivity].
  - destruct (SlaveFramework.ID fw =? mstateTask.FrameworkID task)%string eqn:Eid; cbn [negb].
    + destruct (find _ _) as [executor|] eqn:Efind.
      * split; [discriminate|]. intros H.
        apply find_some in Efind as [Hin Hm].
        apply String.eqb_eq in Eid.
        rewrite (H fw executor (or_introl eq_refl) Eid Hin) in Hm. discriminate.
      * rewrite IH. split.
        -- intros H fw' ex [<-|Hin] Hid Hex.
           ++ exact (find_none _ _ Efind ex Hex).
           ++ exact (H fw' ex Hin Hid Hex).
        -- intros H fw' ex Hin. apply H. now right.
    + rewrite IH. apply String.eqb_neq in Eid. split.
      * intros H fw' ex [<-|Hin] Hid Hex; [contradiction|].
        exact (H fw' ex Hin Hid Hex).
      * intros H fw' ex Hin. apply H. now right.
Qed.

Lemma firstExecutorIn_Some (frameworks : list SlaveFramework.t) (task : mstateTask.t)
      (completedTasks : bool) (executor : Executor.t) :
  firstExecutorIn frameworks task completedTasks = Some executor ->
  exists fw,
    In fw frameworks
    /\ SlaveFramework.ID fw = mstateTask.FrameworkID task
    /\ In executor (executorsOf completedTasks fw)
    /\ matchesExecutor task executor = true.
Proof.
  induction frameworks as [|fw frameworks IH]; cbn [firstExecutorIn]; [discriminate|].
  destruct (SlaveFramework.ID fw =? mstateTask.FrameworkID task)%string eqn:Eid; cbn [negb].
  - destruct (find _ _) as [ex|] eqn:Efind.
    + intros [= <-]. apply find_some in Efind as [Hin Hm].
      apply String.eqb_eq in Eid. exists fw. cbn [In]. auto.
    + intros H. destruct (IH H) as (fw' & Hin & Hrest). exists fw'. cbn [In]. auto.
  - intros H. destruct (IH H) as (fw' & Hin & Hrest). exists fw'. cbn [In]. auto.
Qed.

Lemma matchesExecutor_iff (task : mstateTask.t) (executor : Executor.t) :
  matchesExecutor task executor = true
  <-> Executor.ID executor = mstateTask.ExecutorID task \/ Executor.ID executor = mstateTask.ID task.
Proof. unfold matchesExecutor. now rewrite orb_true_iff, !String.eqb_eq. Qed.

Section ResolutionProperties.

Variable getSlaveState : URL.t -> fetched slaveState.t.

(** [getSlaveInfo] once the node is found and its URL built. *)
Lemma getSlaveInfo_found (c : MesosClient) (task : mstateTask.t) (slave : mstateSlave.t)
      (slaveURL : URL.t) :
  findSlave (State c) (mstateTask.SlaveID task) = Some slave ->
  constructSlaveURL slave = Ok slaveURL ->
  getSlaveInfo getSlaveState c task
  = match getSlaveState slaveURL with
    | Failed msg => Err (External msg)
    | Fetched sstate =>
        match firstExecutor sstate task (SearchCompletedTasks (Options c)) with
        | None => Err DirectoryNotFound
        | Some executor =>
            if (Executor.Directory executor =? "")%string
            then Err DirectoryNotFound
            else Ok (slaveInfo.mk slave sstate (Executor.Directory executor))
        end
    end.
Proof.
  intros Hslave Hurl. unfold getSlaveInfo. rewrite Hslave, Hurl.
  destruct (getSlaveState slaveURL) as [sstate|msg]; [|reflexivity].
  unfold findDirectory, firstExecutor. rewrite findDirectoryIn_first.
  destruct (firstExecutorIn _ _ _); reflexivity.
Qed.

Lemma getSlaveInfo_malformed (c : MesosClient) (task : mstateTask.t) (slave : mstateSlave.t) :
  findSlave (State c) (mstateTask.SlaveID task) = Some slave ->
  hasByte at_sign (mstateSlave.Pid slave) = false ->
  getSlaveInfo getSlaveState c task = Err (MalformedAddress (mstateSlave.Pid slave)).
Proof.
  intros Hslave Hpid. unfold getSlaveInfo. rewrite Hslave.
  destruct (constructSlaveURL_cases slave) as [[_ ->]|[H _]]; [reflexivity|congruence].
Qed.

(** C2, as the code has it.  [getSlaveInfo] fails with [NodeNotFound]
    exactly when no node of the master state has the task's [SlaveID].
    With the node found, it fails with [MalformedAddress] exactly when the
    node's locator has no ['@'].  With the URL built, a failure to fetch the
    node's state is returned as it is; with the state fetched, it fails
    with [DirectoryNotFound] exactly when, among the executors it looks
    through (the completed executors when [SearchCompletedTasks] is set,
    the active ones otherwise) of the frameworks whose id is the task's
    [FrameworkID], none has the task's [ExecutorID] or [ID] as its id, or
    the first that has one has an empty directory; otherwise it returns
    that first executor's directory with the node.  Whatever it returns is
    fully resolved: the node found, and the non-empty directory of a
    matching executor. *)
Theorem getSlaveInfo_outcomes (c : MesosClient) (task : mstateTask.t) :
  (getSlaveInfo getSlaveState c task = Err NodeNotFound
   <-> forall slave, In slave (Slaves (State c)) -> mstateSlave.ID slave <> mstateTask.SlaveID task)
  /\ (forall slave,
         findSlave (State c) (mstateTask.SlaveID task) = Some slave ->
         (getSlaveInfo getSlaveState c task = Err (MalformedAddress (mstateSlave.Pid slave))
          <-> hasByte at_sign (mstateSlave.Pid slave) = false))
  /\ (forall slave slaveURL,
         findSlave (State c) (mstateTask.SlaveID task) = Some slave ->
         constructSlaveURL slave = Ok slaveURL ->
         (forall msg,
             getSlaveState slaveURL = Failed msg ->
             getSlaveInfo getSlaveState c task = Err (External msg))
         /\ forall sstate,
             getSlaveState slaveURL = Fetched sstate ->
             (getSlaveInfo getSlaveState c task = Err DirectoryNotFound
              <-> (forall fw ex,
                      In fw (slaveState.Frameworks sstate) ->
                      SlaveFramework.ID fw = mstateTask.FrameworkID task ->
                      In ex (executorsOf (SearchCompletedTasks (Options c)) fw) ->
                      ~ (Executor.ID ex = mstateTask.ExecutorID task
                         \/ Executor.ID ex = mstateTask.ID task))
                  \/ (exists ex,
                         firstExecutor sstate task (SearchCompletedTasks (Options c)) = Some ex
                         /\ Executor.Directory ex = EmptyString))
             /\ (forall ex,
                    firstExecutor sstate task (SearchCompletedTasks (Options c)) = Some ex ->
                    Executor.Directory ex <> EmptyString ->
                    getSlaveInfo getSlaveState c task
                    = Ok (slaveInfo.mk slave sstate (Executor.Directory ex))))
  /\ (forall info,
         getSlaveInfo getSlaveState c task = Ok info ->
         findSlave (State c) (mstateTask.SlaveID task) = Some (slaveInfo.Slave info)
         /\ slaveInfo.Directory info <> EmptyString
         /\ exists fw ex,
             In fw (slaveState.Frameworks (slaveInfo.State info))
             /\ SlaveFramework.ID fw = mstateTask.FrameworkID task
             /\ In ex (executorsOf (SearchCompletedTasks (Options c)) fw)
             /\ (Executor.ID ex = mstateTask.ExecutorID task \/ Executor.ID ex = mstateTask.ID task)
             /\ slaveInfo.Directory info = Executor.Directory ex).
Proof.
  assert (Hnone : forall sstate : slaveState.t,
             firstExecutor sstate task (SearchCompletedTasks (Options c)) = None
             <-> forall fw ex,
                 In fw (slaveState.Frameworks sstate) ->
                 SlaveFramework.ID fw = mstateTask.FrameworkID task ->
                 In ex (executorsOf (SearchCompletedTasks (Options c)) fw) ->
                 ~ (Executor.ID ex = mstateTask.ExecutorID task \/ Executor.ID ex = mstateTask.ID task)).
  { intros sstate. unfold firstExecutor. rewrite firstExecutorIn_None_iff.
    split; intros H fw ex Hfw Hid Hex; specialize (H fw ex Hfw Hid Hex).
    - rewrite <- matchesExecutor_iff, H. discriminate.
    - rewrite <- matchesExecutor_iff in H. now destruct (matchesExecutor task ex). }
  split; [|split; [|split]].
  - (* NodeNotFound *)
    rewrite <- findSlave_None_iff. split.
    + intros H. destruct (findSlave (State c) (mstateTask.SlaveID task)) as [slave|] eqn:Hslave;
        [exfalso | reflexivity].
      destruct (constructSlaveURL_cases slave) as [[Hat _]|[_ [slaveURL Hurl]]].
      * rewrite (getSlaveInfo_malformed c task slave Hslave Hat) in H.
        apply Err_inj in H. now apply MalformedAddress_not_NodeNotFound in H.
      * rewrite (getSlaveInfo_found c task slave slaveURL Hslave Hurl) in H.
        destruct (getSlaveState slaveURL) as [sstate|msg]; [|discriminate].
        destruct (firstExecutor _ _ _) as [ex|]; [|discriminate].
        destruct (Executor.Directory ex =? "")%string; discriminate.
    + intros H. unfold getSlaveInfo. now rewrite H.
  - (* MalformedAddress *)
    intros slave Hslave. split.
    + intros H. destruct (constructSlaveURL_cases slave) as [[Hat _]|[_ [slaveURL Hurl]]];
        [exact Hat | exfalso].
      rewrite (getSlaveInfo_found c task slave slaveURL Hslave Hurl) in H.
      destruct (getSlaveState slaveURL) as [sstate|msg]; [|discriminate].
      destruct (firstExecutor _ _ _) as [ex|].
      * destruct (Executor.Directory ex =? "")%string; [|discriminate].
        apply Err_inj in H. symmetry in H.
        now apply MalformedAddress_not_DirectoryNotFound in H.
      * apply Err_inj in H. symmetry in H.
        now apply MalformedAddress_not_DirectoryNotFound in H.
    + now apply getSlaveInfo_malformed.
  - (* the node's state: not fetched, or searched for the executor *)
    intros slave slaveURL Hslave Hurl.
    rewrite (getSlaveInfo_found c task slave slaveURL Hslave Hurl).
    split; [intros msg ->; reflexivity|].
    intros sstate ->. split.
    + rewrite <- Hnone.
      destruct (firstExecutor _ _ _) as [ex|] eqn:Hex.
      * destruct (Executor.Directory ex =? "")%string eqn:Hdir.
        -- apply String.eqb_eq in Hdir. split; [|reflexivity].
           intros _. right. now exists ex.
        -- apply String.eqb_neq in Hdir. split; [discriminate|].
           intros [H|(ex' & [= <-] & H)]; [discriminate | contradiction].
      * split; [now left | reflexivity].
    + intros ex -> Hdir. apply String.eqb_neq in Hdir. now rewrite Hdir.
  - (* a returned location is fully resolved *)
    intros info H.
    destruct (findSlave (State c) (mstateTask.SlaveID task)) as [slave|] eqn:Hslave;
      [|unfold getSlaveInfo in H; rewrite Hslave in H; discriminate].
    destruct (constructSlaveURL_cases slave) as [[Hat _]|[_ [slaveURL Hurl]]].
    + rewrite (getSlaveInfo_malformed c task slave Hslave Hat) in H. discriminate.
    + rewrite (getSlaveInfo_found c task slave slaveURL Hslave Hurl) in H.
      destruct (getSlaveState slaveURL) as [sstate|msg]; [|discriminate].
      destruct (firstExecutor _ _ _) as [ex|] eqn:Hex; [|discriminate].
      destruct (Executor.Directory ex =? "")%string eqn:Hdir; [discriminate|].
      injection H as <-. cbn [slaveInfo.Slave slaveInfo.Directory slaveInfo.State].
      apply String.eqb_neq in Hdir.
      split; [reflexivity|]. split; [exact Hdir|].
      destruct (firstExecutorIn_Some _ _ _ _ Hex) as (fw & Hfw & Hid & Hin & Hm).
      exists fw, ex. rewrite <- matchesExecutor_iff. auto.
Qed.

End ResolutionProperties.

Example getSlaveInfo_webapp :
  getSlaveInfo (reachable nodeState) (client false false) webappTask
  = Ok (slaveInfo.mk node1 nodeState sandbox).
Proof. reflexivity. Qed.

Lemma getSlaveInfo_outcomes_witness :
  getSlaveInfo (reachable nodeState) (client false false) webappTask
  = Ok (slaveInfo.mk node1 nodeState sandbox).
Proof.
  destruct (getSlaveInfo_outcomes (reachable nodeState) (client false false) webappTask)
    as (_ & _ & H & _).
  destruct (H node1
              (URL.mk "http" "node1.example:5051" "//node1.example:5051/slave(1)/state.json")
              eq_refl eq_refl) as [_ Hfetched].
  destruct (Hfetched nodeState eq_refl) as [_ Hfound].
  apply (Hfound (Executor.mk "E1" sandbox) eq_refl). discriminate.
Defined.

(** C2 as it is worded does not hold.  (1) The node's state lists an
    executor of the task's framework under the task's executor id, and
    resolution still fails with [DirectoryNotFound], because that
    executor's directory is empty.  (2) The node is found and its locator
    has an ['@'], and resolution neither returns a location nor fails with
    one of the three errors, because the node's state could not be
    fetched.  (3) With [SearchCompletedTasks] set, an executor listed as
    active under the task's executor id is not looked at, and resolution
    fails with [DirectoryNotFound]. *)
Lemma getSlaveInfo_not_as_claimed :
  (getSlaveInfo (reachable nodeStateEmptyDirectory) (client false false) webappTask
   = Err DirectoryNotFound
   /\ exists fw ex,
       In fw (slaveState.Frameworks nodeStateEmptyDirectory)
       /\ SlaveFramework.ID fw = mstateTask.FrameworkID webappTask
       /\ In ex (SlaveFramework.Executors fw)
       /\ Executor.ID ex = mstateTask.ExecutorID webappTask)
  /\ (getSlaveInfo unreachable (client false false) webappTask
      = Err (External "connection refused")
      /\ findSlave (State (client false false)) (mstateTask.SlaveID webappTask) = Some node1
      /\ hasByte at_sign (mstateSlave.Pid node1) = true)
  /\ (getSlaveInfo (reachable nodeState) (client true false) webappTask
      = Err DirectoryNotFound
      /\ exists fw ex,
          In fw (slaveState.Frameworks nodeState)
          /\ SlaveFramework.ID fw = mstateTask.FrameworkID webappTask
          /\ In ex (SlaveFramework.Executors fw)
          /\ Executor.ID ex = mstateTask.ExecutorID webappTask).
Proof.
  split; [|split].
  - split; [reflexivity|].
    exists (SlaveFramework.mk "F1" [Executor.mk "E1" EmptyString] []),
           (Executor.mk "E1" EmptyString).
    cbn. auto.
  - repeat split.
  - split; [reflexivity|].
    exists (SlaveFramework.mk "F1" [Executor.mk "E1" sandbox] []), (Executor.mk "E1" sandbox).
    cbn. auto.
Qed.

(** ** Starting the tailers *)

Lemma NotFound_not_NodeNotFound : NotFound <> NodeNotFound.
Proof. discriminate. Qed.

Lemma NotFound_not_DirectoryNotFound : NotFound <> DirectoryNotFound.
Proof. discriminate. Qed.

Lemma NotFound_not_MalformedAddress (pid : string) : NotFound <> MalformedAddress pid.
Proof. unfold MalformedAddress, NotFound. cbn [append]. discriminate. Qed.

Section TailersProperties.

Variable getSlaveState : URL.t -> fetched slaveState.t.

(** [getSlaveInfo] never fails with the error of an unknown application. *)
Lemma getSlaveInfo_not_NotFound (c : MesosClient) (task : mstateTask.t) :
  getSlaveInfo getSlaveState c task <> Err NotFound.
Proof.
  unfold getSlaveInfo.
  destruct (findSlave _ _) as [slave|]; [|intros H; apply Err_inj in H; discriminate].
  destruct (constructSlaveURL_cases slave) as [[_ ->]|[_ [slaveURL ->]]].
  - intros H. apply Err_inj in H. symmetry in H.
    now apply NotFound_not_MalformedAddress in H.
  - destruct (getSlaveState slaveURL); [|discriminate].
    destruct (_ =? _)%string; discriminate.
Qed.

(** The loop of [TailLogToChannel]: tailers are started for the tasks in
    order, each on the sandbox resolved for it, up to the first task whose
    resolution fails. *)
Lemma startTailers_spec (c : MesosClient) (logtype : LogType) (duration : Z)
      (tasks : list mstateTask.t) (chans : list tailer) :
  exists done : list tailer,
    fst (startTailers getSlaveState c logtype duration tasks chans) = (chans ++ done)%list
    /\ (forall t, In t done ->
                  getSlaveInfo getSlaveState c (tailTask t) = Ok (tailInfo t)
                  /\ tailLog t = logtype /\ tailDuration t = duration)
    /\ match snd (startTailers getSlaveState c logtype duration tasks chans) with
       | None => map tailTask done = tasks
       | Some err =>
           exists task rest,
           tasks = (map tailTask done ++ task :: rest)%list
           /\ getSlaveInfo getSlaveState c task = Err err
       end.
Proof.
  revert chans. induction tasks as [|task tasks IH]; intros chans; cbn [startTailers].
  - exists []. cbn [fst snd map]. rewrite app_nil_r.
    split; [reflexivity|]. split; [intros t []|reflexivity].
  - destruct (getSlaveInfo getSlaveState c task) as [info|err] eqn:Hinfo.
    + destruct (IH (chans ++ [Build_tailer task info logtype duration])%list)
        as (done & Hfst & Hdone & Hsnd).
      exists (Build_tailer task info logtype duration :: done).
      split; [rewrite Hfst, <- app_assoc; reflexivity|].
      split.
      * intros t [<-|Hin]; [cbn; auto | now apply Hdone].
      * destruct (snd _) as [err|].
        -- destruct Hsnd as (task' & rest & -> & Herr).
           exists task', rest. split; [reflexivity | exact Herr].
        -- cbn [map tailTask]. now rewrite Hsnd.
    + exists []. cbn [fst snd map app]. rewrite app_nil_r.
      split; [reflexivity|]. split; [intros t []|].
      exists task, tasks. split; [reflexivity | exact Hinfo].
Qed.

Lemma no_match_iff (appID : string) (frameworks : list Framework.t) :
  map withLastState (filter (matchesApp appID) (flat_map Framework.Tasks frameworks)) = []
  <-> forall fw t0,
      In fw frameworks -> In t0 (Framework.Tasks fw) ->
      ~ (mstateTask.ID t0 = appID \/ mstateTask.Name t0 = appID).
Proof.
  split.
  - intros H fw t0 Hfw Ht0 Hm.
    assert (Hin : In (withLastState t0)
                     (map withLastState
                          (filter (matchesApp appID) (flat_map Framework.Tasks frameworks)))).
    { apply in_selected. exists fw, t0. auto. }
    rewrite H in Hin. exact Hin.
  - intros H.
    destruct (map _ _) as [|t l] eqn:E; [reflexivity | exfalso].
    assert (Hin : In t (t :: l)) by now left.
    rewrite <- E in Hin. apply in_selected in Hin as (fw & t0 & Hfw & Ht0 & Hm & _).
    exact (H fw t0 Hfw Ht0 Hm).
Qed.

End TailersProperties.

Section TailLogToChannelProperties.

Variable getSlaveState : URL.t -> fetched slaveState.t.

(** [getSlaveInfo] reads the client's state and its [SearchCompletedTasks]
    option, and nothing else of the client. *)
Lemma getSlaveInfo_reads (c c' : MesosClient) (task : mstateTask.t) :
  State c' = State c ->
  SearchCompletedTasks (Options c') = SearchCompletedTasks (Options c) ->
  getSlaveInfo getSlaveState c' task = getSlaveInfo getSlaveState c task.
Proof. intros Hs Ho. unfold getSlaveInfo. now rewrite Hs, Ho. Qed.

Lemma startTailers_reads (c c' : MesosClient) (logtype : LogType) (duration : Z)
      (tasks : list mstateTask.t) (chans : list tailer) :
  State c' = State c ->
  SearchCompletedTasks (Options c') = SearchCompletedTasks (Options c) ->
  startTailers getSlaveState c' logtype duration tasks chans
  = startTailers getSlaveState c logtype duration tasks chans.
Proof.
  intros Hs Ho. revert chans.
  induction tasks as [|task tasks IH]; intros chans; cbn [startTailers]; [reflexivity|].
  rewrite (getSlaveInfo_reads c c' task Hs Ho).
  destruct (getSlaveInfo getSlaveState c task); [apply IH | reflexivity].
Qed.

(** C10, as the code has it.  [TailLogToChannel] takes the active tasks
    whose id or name is the identifier, in the order of the master state,
    whatever the client's options, and returns the application-not-found
    error exactly when there is none, whether completed tasks match or not.
    It resolves the sandbox of each in turn and starts a tailer on it; when
    every resolution succeeds there is one tailer per such task, in that
    order.  A resolution that fails ends the call with its error, the
    tailers of the tasks before it started.  Resolution reads
    [SearchCompletedTasks]; nothing reads [ShowLatestOnly]. *)
Theorem TailLogToChannel_active_only (c : MesosClient) (appID : string)
        (logtype : LogType) (duration : Z) :
  let selected :=
    map withLastState
        (filter (matchesApp appID) (flat_map Framework.Tasks (Frameworks (State c)))) in
  let started := fst (TailLogToChannel getSlaveState c appID logtype duration) in
  let err := snd (TailLogToChannel getSlaveState c appID logtype duration) in
  (err = Some NotFound
   <-> forall fw t0,
       In fw (Frameworks (State c)) -> In t0 (Framework.Tasks fw) ->
       ~ (mstateTask.ID t0 = appID \/ mstateTask.Name t0 = appID))
  /\ (forall t, In t started ->
                getSlaveInfo getSlaveState c (tailTask t) = Ok (tailInfo t)
                /\ tailLog t = logtype /\ tailDuration t = duration)
  /\ (err = None -> map tailTask started = selected)
  /\ (forall e, err = Some e -> e <> NotFound ->
                exists task rest,
                  selected = (map tailTask started ++ task :: rest)%list
                  /\ getSlaveInfo getSlaveState c task = Err e)
  /\ ((forall task, In task selected ->
                    exists info, getSlaveInfo getSlaveState c task = Ok info) ->
      selected <> [] ->
      err = None /\ map tailTask started = selected)
  /\ (forall c' : MesosClient,
         State c' = State c ->
         SearchCompletedTasks (Options c') = SearchCompletedTasks (Options c) ->
         TailLogToChannel getSlaveState c' appID logtype duration
         = TailLogToChannel getSlaveState c appID logtype duration).
Proof.
  intros selected started err.
  assert (Hcases :
            (selected = [] /\ started = [] /\ err = Some NotFound)
            \/ (selected <> []
                /\ started = fst (startTailers getSlaveState c logtype duration selected [])
                /\ err = snd (startTailers getSlaveState c logtype duration selected []))).
  { subst started err. unfold TailLogToChannel. rewrite findTask_Tasks. fold selected.
    destruct selected as [|t l].
    - left. repeat split.
    - right. replace (Z.of_nat (Datatypes.length (t :: l)) =? 0) with false
        by (symmetry; apply Z.eqb_neq; cbn [List.length]; lia).
      repeat split. discriminate. }
  pose proof (startTailers_spec getSlaveState c logtype duration selected [])
    as (done & Hfst & Hdone & Hsnd).
  cbn [app] in Hfst.
  split; [|split; [|split; [|split; [|split]]]].
  - unfold selected at 1 in Hcases. rewrite <- no_match_iff. fold selected.
    destruct Hcases as [(Hsel & _ & Herr)|(Hsel & _ & Herr)].
    + split; auto.
    + split; [|contradiction]. intros H. exfalso.
      rewrite Herr in H. rewrite H in Hsnd.
      destruct Hsnd as (task & rest & _ & Hinfo).
      exact (getSlaveInfo_not_NotFound getSlaveState c task Hinfo).
  - destruct Hcases as [(_ & -> & _)|(_ & -> & _)]; [intros t []|].
    rewrite Hfst. exact Hdone.
  - destruct Hcases as [(_ & _ & ->)|(_ & -> & ->)]; [discriminate|].
    intros H. rewrite H in Hsnd. now rewrite Hfst.
  - destruct Hcases as [(_ & _ & ->)|(_ & -> & ->)].
    + intros e [= <-] H. contradiction.
    + intros e H _. rewrite H in Hsnd. now rewrite Hfst.
  - intros Hall Hsel.
    destruct Hcases as [(H & _)|(_ & -> & ->)]; [contradiction|].
    rewrite Hfst.
    destruct (snd _) as [e|]; [exfalso | auto].
    destruct Hsnd as (task & rest & Hsplit & Hinfo).
    destruct (Hall task) as [info Hok]; [|congruence].
    rewrite Hsplit. apply in_or_app. right. now left.
  - intros c' Hs Ho. unfold TailLogToChannel. rewrite Hs.
    destruct (_ =? 0); [reflexivity|].
    now apply startTailers_reads.
Qed.

End TailLogToChannelProperties.

Example TailLogToChannel_webapp :
  TailLogToChannel (reachable nodeState) (client false false) "webapp" STDOUT 1
  = ([Build_tailer (withLastState webappTask) (slaveInfo.mk node1 nodeState sandbox) STDOUT 1],
     None).
Proof. reflexivity. Qed.

Example TailLogToChannel_unknown :
  TailLogToChannel (reachable nodeState) (client false false) "database" STDOUT 1
  = ([], Some NotFound).
Proof. reflexivity. Qed.

Lemma TailLogToChannel_active_only_witness :
  snd (TailLogToChannel (reachable nodeState) (client false true) "webapp" STDOUT 1) = None
  /\ map tailTask
         (fst (TailLogToChannel (reachable nodeState) (client false true) "webapp" STDOUT 1))
     = [withLastState webappTask].
Proof.
  destruct (TailLogToChannel_active_only (reachable nodeState) (client false true)
                                         "webapp" STDOUT 1)
    as (_ & _ & _ & _ & H & _).
  apply H.
  - intros task [<-|[]]. eexists. reflexivity.
  - discriminate.
Defined.

(** C10 as it is worded does not hold: on the same cluster and the same
    identifier, with the one matching active task's executor listed as
    active on its node, the call starts the task's tailer when
    [SearchCompletedTasks] is unset, and starts none and fails with
    [DirectoryNotFound] when it is set. *)
Lemma TailLogToChannel_depends_on_option :
  In webappTask (flat_map Framework.Tasks (Frameworks (State (client true false))))
  /\ mstateTask.Name webappTask = "webapp"
  /\ map tailTask
         (fst (TailLogToChannel (reachable nodeState) (client false false) "webapp" STDOUT 1))
     = [withLastState webappTask]
  /\ TailLogToChannel (reachable nodeState) (client true false) "webapp" STDOUT 1
     = ([], Some DirectoryNotFound).
Proof.
  split; [now left|]. repeat split.
Qed.

(** ** The tail poller *)

Lemma wrap_inRange (z : Z) : GoInt.inRange z -> GoInt.wrap z = z.
Proof.
  unfold GoInt.inRange, GoInt.minInt, GoInt.maxInt, GoInt.wrap.
  change (2 ^ 63) with 9223372036854775808.
  change (2 ^ 64) with 18446744073709551616.
  intros H. rewrite Z.mod_small; lia.
Qed.


Section TailProperties.

Variable unmarshal : string -> readData.

(** Every later turn of the loop is a turn of [tailFrom] at the offset the
    loop has reached: the trace of a longer run is the trace so far, its
    last request being the one the next answer is for. *)
Lemma tailFrom_app (t : tailer) (before : list (fetched string)) (o o' : Z) :
  offsetAfter unmarshal t o before = Continue o' ->
  exists earlier,
    tailFrom unmarshal t o before = (earlier ++ [HttpGet (tailURL t o')])%list
    /\ forall rest,
      tailFrom unmarshal t o (before ++ rest)
      = (earlier ++ tailFrom unmarshal t o' rest)%list.
Proof.
  revert o. induction before as [|resp before IH]; intros o H.
  - cbn [offsetAfter] in H. injection H as <-.
    exists []. split; [reflexivity|]. intros rest. reflexivity.
  - cbn [offsetAfter] in H. cbn [tailFrom app].
    destruct (pollOnce unmarshal t o resp) as [acts nx]. cbn [snd] in H.
    destruct nx as [o1|]; [|discriminate].
    destruct (IH o1 H) as (earlier & Htrace & Hrest).
    exists (HttpGet (tailURL t o) :: acts ++ earlier)%list. split.
    + rewrite Htrace. cbn [app]. now rewrite app_assoc.
    + intros rest. rewrite Hrest. cbn [app]. now rewrite app_assoc.
Qed.

Lemma tailFrom_head (t : tailer) (o : Z) (resps : list (fetched string)) :
  exists later, tailFrom unmarshal t o resps = HttpGet (tailURL t o) :: later.
Proof. destruct resps; cbn [tailFrom]; eexists; reflexivity. Qed.

Lemma offsetAfter_app (t : tailer) (before rest : list (fetched string)) (o o' : Z) :
  offsetAfter unmarshal t o before = Continue o' ->
  offsetAfter unmarshal t o (before ++ rest) = offsetAfter unmarshal t o' rest.
Proof.
  revert o. induction before as [|resp before IH]; intros o H; cbn [offsetAfter app] in *.
  - now injection H as <-.
  - destruct (snd (pollOnce unmarshal t o resp)) as [o1|]; [now apply IH | discriminate].
Qed.

(** One turn, then the next request: how a turn that goes on shows in the
    trace of [asyncTail]. *)
Lemma asyncTail_turn (t : tailer) (before rest : list (fetched string)) (o o' : Z)
      (resp : fetched string) (acts : list action) :
  offsetAfter unmarshal t 0 before = Continue o ->
  pollOnce unmarshal t o resp = (acts, Continue o') ->
  offsetAfter unmarshal t 0 (before ++ [resp]) = Continue o'
  /\ exists earlier later,
      asyncTail unmarshal t before = (earlier ++ [HttpGet (tailURL t o)])%list
      /\ asyncTail unmarshal t (before ++ resp :: rest)
         = (earlier ++ HttpGet (tailURL t o) :: acts ++ HttpGet (tailURL t o') :: later)%list.
Proof.
  intros Hreach Hpoll. split.
  - rewrite (offsetAfter_app t before [resp] 0 o Hreach).
    cbn [offsetAfter]. now rewrite Hpoll.
  - destruct (tailFrom_app t before 0 o Hreach) as (earlier & Htrace & Hrest).
    destruct (tailFrom_head t o' rest) as [later Hlater].
    exists earlier, later. split; [exact Htrace|].
    unfold asyncTail. rewrite Hrest. cbn [tailFrom]. rewrite Hpoll, Hlater. reflexivity.
Qed.

End TailProperties.

Section TailCycles.

Variable unmarshal : string -> readData.


(** C3, as the code has it.  At a turn of the loop whose offset is [O], a
    read whose payload has [L >= 5] bytes, for a task id of the shape
    [p.s-r] and with [O + L] within Go's [int], makes the tailer send the
    decorated payload, and the next request asks for offset [O + L],
    whatever the payload holds. *)
Theorem asyncTail_advance (t : tailer) (before rest : list (fetched string)) (O : Z)
        (body p s r : string) :
  offsetAfter unmarshal t 0 before = Continue O ->
  5 <= len (Data (unmarshal body)) ->
  mstateTask.ID (tailTask t) = (p ++ "." ++ s ++ "-" ++ r)%string ->
  hasByte dot p = false ->
  hasByte dash s = false ->
  GoInt.inRange (O + len (Data (unmarshal body))) ->
  pollOnce unmarshal t O (Fetched body)
  = ([Send (decorated (p ++ "." ++ s) (Data (unmarshal body)))],
     Continue (O + len (Data (unmarshal body))))
  /\ offsetAfter unmarshal t 0 (before ++ [Fetched body])
     = Continue (O + len (Data (unmarshal body)))
  /\ exists earlier later,
      asyncTail unmarshal t before = (earlier ++ [HttpGet (tailURL t O)])%list
      /\ asyncTail unmarshal t (before ++ Fetched body :: rest)
         = (earlier
              ++ HttpGet (tailURL t O)
              :: Send (decorated (p ++ "." ++ s) (Data (unmarshal body)))
              :: HttpGet (tailURL t (O + len (Data (unmarshal body)))) :: later)%list.
Proof.
  intros Hreach Hlong Hid Hp Hs Hrange.
  assert (Hpoll : pollOnce unmarshal t O (Fetched body)
                  = ([Send (decorated (p ++ "." ++ s) (Data (unmarshal body)))],
                     Continue (O + len (Data (unmarshal body))))).
  { unfold pollOnce.
    replace (len (Data (unmarshal body)) <? 5) with false
      by (symmetry; apply Z.ltb_ge; exact Hlong).
    rewrite Hid, (decorateLog_shape p s r _ Hp Hs).
    unfold GoInt.add. now rewrite (wrap_inRange _ Hrange). }
  destruct (asyncTail_turn unmarshal t before rest O _ (Fetched body) _ Hreach Hpoll)
    as (Hafter & earlier & later & Hbefore & Htrace).
  split; [exact Hpoll|]. split; [exact Hafter|].
  exists earlier, later. split; [exact Hbefore | exact Htrace].
Qed.

End TailCycles.


Lemma asyncTail_advance_witness :
  pollOnce dataOnly webappTailer 0 (Fetched "line1")
  = ([Send ("[webapp.1234abcd] line1" ++ str LF)], Continue 5).
Proof.
  refine (proj1 (asyncTail_advance dataOnly webappTailer [] [] 0 "line1"
                                   "webapp" "1234abcd" "5678" _ _ _ _ _ _)).
  - reflexivity.
  - vm_compute. discriminate.
  - reflexivity.
  - reflexivity.
  - reflexivity.
  - split; vm_compute; discriminate.
Defined.

Example asyncTail_two_reads :
  asyncTail dataOnly webappTailer [Fetched ("line1" ++ str LF); Fetched "ab"]
  = [HttpGet (tailURL webappTailer 0);
     Send ("[webapp.1234abcd] line1" ++ str LF);
     HttpGet (tailURL webappTailer 6);
     Sleep 2000000000;
     HttpGet (tailURL webappTailer 6)].
Proof. reflexivity. Qed.

Example tailURL_webapp :
  tailURL webappTailer 6
  = "http://node1.example:5051/files/read.json?path=/var/lib/mesos/slaves/S1/frameworks/F1/executors/E1/runs/latest/stdout&offset=6&length=5000".
Proof. reflexivity. Qed.

(** C3 as it is worded does not hold: a read at offset 0 that returns the
    3 bytes "abc" is followed by a request for offset 0 again, which is
    not a request for offset 3. *)
Lemma asyncTail_short_read_keeps_offset :
  len (Data (dataOnly "abc")) = 3
  /\ asyncTail dataOnly webappTailer [Fetched "abc"]
     = [HttpGet (tailURL webappTailer 0); Sleep 2000000000; HttpGet (tailURL webappTailer 0)]
  /\ tailURL webappTailer 0 <> tailURL webappTailer (0 + 3).
Proof.
  split; [reflexivity|]. split; [reflexivity|].
  apply String.eqb_neq. reflexivity.
Qed.

(** ** Ordering by latest status *)

(** [Less] is a strict weak order: it is asymmetric, and its complement is
    transitive. *)
Lemma Less_asym (a b : mstateTask.t) : Less a b = true -> Less b a = false.
Proof.
  unfold Less. destruct (mstateTask.LastState a) as [sa|], (mstateTask.LastState b) as [sb|];
    try reflexivity; try discriminate.
  rewrite Z.ltb_lt, Z.ltb_ge. lia.
Qed.

Lemma Less_false_trans (a b c : mstateTask.t) :
  Less a b = false -> Less b c = false -> Less a c = false.
Proof.
  unfold Less.
  destruct (mstateTask.LastState a) as [sa|], (mstateTask.LastState b) as [sb|],
           (mstateTask.LastState c) as [sc|];
    try reflexivity; try discriminate.
  rewrite !Z.ltb_ge. lia.
Qed.

Lemma Less_strictWeakOrder : strictWeakOrder Less.
Proof. split; [exact Less_asym | exact Less_false_trans]. Qed.

Lemma nth_error_rev_Some (A : Type) (l : list A) (i : nat) (a : A) :
  nth_error (rev l) i = Some a ->
  (i < List.length l)%nat /\ nth_error l (List.length l - S i) = Some a.
Proof.
  rewrite nth_error_rev. destruct (Nat.ltb_spec i (List.length l)); [|discriminate].
  auto.
Qed.

(** Insertion sort keeps the promise of [sort.Sort]. *)
Section InsertionSort.

Variable less : mstateTask.t -> mstateTask.t -> bool.

Lemma insertRev_In (x y : mstateTask.t) (sortedRev : list mstateTask.t) :
  In y (insertRev less x sortedRev) <-> y = x \/ In y sortedRev.
Proof.
  induction sortedRev as [|z rest IH]; cbn [insertRev In].
  - intuition congruence.
  - destruct (less x z); cbn [In]; rewrite ?IH; intuition congruence.
Qed.

Lemma insertRev_Permutation (x : mstateTask.t) (sortedRev : list mstateTask.t) :
  Permutation (insertRev less x sortedRev) (x :: sortedRev).
Proof.
  induction sortedRev as [|y rest IH]; cbn [insertRev]; [reflexivity|].
  destruct (less x y); [|reflexivity].
  rewrite IH. apply perm_swap.
Qed.

Lemma insertion_Permutation (data sortedRev : list mstateTask.t) :
  Permutation (fold_left (fun sortedRev x => insertRev less x sortedRev) data sortedRev)
              (data ++ sortedRev).
Proof.
  revert sortedRev. induction data as [|x data IH]; intros sortedRev; cbn [fold_left app].
  - reflexivity.
  - rewrite IH, insertRev_Permutation. symmetry. apply Permutation_middle.
Qed.

Lemma insertionSort_Permutation (data : list mstateTask.t) :
  Permutation (insertionSort less data) data.
Proof.
  unfold insertionSort. rewrite <- Permutation_rev, insertion_Permutation.
  now rewrite app_nil_r.
Qed.

Hypothesis less_order : strictWeakOrder less.

(** Inserting keeps the sorted prefix sorted (last element first). *)
Lemma insertRev_sorted (x : mstateTask.t) (sortedRev : list mstateTask.t) :
  StronglySorted (fun a b => less a b = false) sortedRev ->
  StronglySorted (fun a b => less a b = false) (insertRev less x sortedRev).
Proof.
  destruct less_order as [Hasym Htrans].
  induction 1 as [|y rest Hsorted IH Hall]; cbn [insertRev].
  - constructor; constructor.
  - destruct (less x y) eqn:E.
    + constructor; [exact IH|].
      apply Forall_forall. intros z Hz. apply insertRev_In in Hz as [->|Hz].
      * now apply Hasym.
      * rewrite Forall_forall in Hall. now apply Hall.
    + constructor; [constructor; assumption|].
      constructor; [exact E|].
      rewrite Forall_forall in Hall |- *. intros z Hz.
      exact (Htrans x y z E (Hall z Hz)).
Qed.

Lemma insertion_sorted (data sortedRev : list mstateTask.t) :
  StronglySorted (fun a b => less a b = false) sortedRev ->
  StronglySorted (fun a b => less a b = false)
                 (fold_left (fun sortedRev x => insertRev less x sortedRev) data sortedRev).
Proof.
  revert sortedRev. induction data as [|x data IH]; intros sortedRev H; cbn [fold_left].
  - exact H.
  - apply IH. now apply insertRev_sorted.
Qed.

(** In a list sorted last element first, an element is never [less] than
    one that comes after it in the list. *)
Lemma sortedRev_nth (l : list mstateTask.t) (i j : nat) (a b : mstateTask.t) :
  StronglySorted (fun a b => less a b = false) l ->
  nth_error l i = Some a -> nth_error l j = Some b -> (i < j)%nat ->
  less a b = false.
Proof.
  intros H. revert i j. induction H as [|y rest Hsorted IH Hall]; intros i j Ha Hb Hij.
  - destruct i; discriminate.
  - destruct j as [|j]; [lia|]. cbn [nth_error] in Hb.
    destruct i as [|i]; cbn [nth_error] in Ha.
    + injection Ha as <-. rewrite Forall_forall in Hall.
      apply Hall. eapply nth_error_In. exact Hb.
    + apply (IH i j Ha Hb). lia.
Qed.

Lemma insertionSort_ordered (data : list mstateTask.t) (i j : nat) (a b : mstateTask.t) :
  (i < j)%nat ->
  nth_error (insertionSort less data) i = Some a ->
  nth_error (insertionSort less data) j = Some b ->
  less b a = false.
Proof.
  unfold insertionSort. intros Hij Ha Hb.
  apply nth_error_rev_Some in Ha as [Hi Ha]. apply nth_error_rev_Some in Hb as [Hj Hb].
  eapply sortedRev_nth; [|exact Hb|exact Ha|lia].
  apply insertion_sorted. constructor.
Qed.

End InsertionSort.

Lemma insertionSort_contract : sortContract insertionSort.
Proof.
  intros less data. split.
  - apply insertionSort_Permutation.
  - intros Horder i j a b. now apply insertionSort_ordered.
Qed.

Lemma findTaskLastState_last (task : mstateTask.t) (init : list mstateTaskStatus.t) (s : mstateTaskStatus.t) :
  mstateTask.Statuses task = (init ++ [s])%list -> findTaskLastState task = Some s.
Proof.
  intros H. unfold findTaskLastState. rewrite H, length_app. cbn [List.length].
  replace (0 <? Z.of_nat (List.length init + 1)) with true
    by (symmetry; apply Z.ltb_lt; lia).
  replace (List.length init + 1 - 1)%nat with (List.length init) by lia.
  rewrite nth_error_app2 by lia. now rewrite Nat.sub_diag.
Qed.

Lemma findTaskLastState_none (task : mstateTask.t) :
  mstateTask.Statuses task = [] -> findTaskLastState task = None.
Proof. intros H. unfold findTaskLastState. now rewrite H. Qed.

(** Every task [findTask] returns carries its latest status. *)
Lemma findTask_LastState (state : masterState) (appID : string) (t : mstateTask.t) :
  In t (taskInfo.Tasks (findTask state appID))
  \/ In t (taskInfo.CompletedTasks (findTask state appID)) ->
  mstateTask.LastState t = findTaskLastState t.
Proof.
  rewrite findTask_Tasks, findTask_CompletedTasks.
  intros [H|H]; apply in_selected in H as (fw & t0 & _ & _ & _ & ->); reflexivity.
Qed.

Section Ordering.

(** [sort.Sort], known by its promise only. *)
Variable sort_Sort :
  (mstateTask.t -> mstateTask.t -> bool) -> list mstateTask.t -> list mstateTask.t.
Hypothesis sort_Sort_contract : sortContract sort_Sort.

Lemma sort_Sort_In (data : list mstateTask.t) (y : mstateTask.t) :
  In y (sort_Sort Less data) <-> In y data.
Proof.
  destruct (sort_Sort_contract Less data) as [Hperm _]. split.
  - apply Permutation_in. exact Hperm.
  - apply Permutation_in. symmetry. exact Hperm.
Qed.

Lemma sort_Sort_ordered (data : list mstateTask.t) (i j : nat) (a b : mstateTask.t) :
  nth_error (sort_Sort Less data) i = Some a ->
  nth_error (sort_Sort Less data) j = Some b ->
  (i < j)%nat ->
  Less b a = false.
Proof.
  intros Ha Hb Hij.
  destruct (sort_Sort_contract Less data) as [_ Hordered].
  exact (Hordered Less_strictWeakOrder i j a b Hij Ha Hb).
Qed.

(** The sequence [GetLog] ranges over is the sorted group, or its first
    element alone. *)
Lemma GetLog_tasks_sorted (c : MesosClient) (appID : string) (tasks : list mstateTask.t) :
  GetLog_tasks sort_Sort c appID = Ok tasks ->
  exists group,
    (group = taskInfo.Tasks (findTask (State c) appID)
     \/ group = taskInfo.CompletedTasks (findTask (State c) appID))
    /\ forall i A, nth_error tasks i = Some A -> nth_error (sort_Sort Less group) i = Some A.
Proof.
  unfold GetLog_tasks. cbv zeta.
  set (group := if SearchCompletedTasks (Options c)
                then taskInfo.CompletedTasks (findTask (State c) appID)
                else taskInfo.Tasks (findTask (State c) appID)).
  destruct (_ =? 0); [discriminate|]. intros [= <-].
  exists group. split.
  - subst group. destruct (SearchCompletedTasks (Options c)); auto.
  - intros i A. destruct (ShowLatestOnly (Options c)); [|auto].
    change (nth_error (firstn 1 (sort_Sort Less group)) i = Some A ->
            nth_error (sort_Sort Less group) i = Some A).
    rewrite nth_error_firstn. destruct (Nat.ltb i 1); [auto | discriminate].
Qed.

(** C7. In the task sequence that [GetLog] ranges over, whatever sort
    keeping the promise of [sort.Sort] orders it, a task whose latest
    status (the last element of its status sequence) has the later
    timestamp comes before one whose latest status has the earlier
    timestamp, and a task that has a status comes before every task that
    has none. *)
Theorem GetLog_order (c : MesosClient) (appID : string) (tasks : list mstateTask.t)
        (i j : nat) (A B : mstateTask.t) :
  GetLog_tasks sort_Sort c appID = Ok tasks ->
  nth_error tasks i = Some A ->
  nth_error tasks j = Some B ->
  (forall initA sA initB sB,
      mstateTask.Statuses A = (initA ++ [sA])%list ->
      mstateTask.Statuses B = (initB ++ [sB])%list ->
      mstateTaskStatus.Timestamp sA > mstateTaskStatus.Timestamp sB ->
      (i < j)%nat)
  /\ (forall initA sA,
         mstateTask.Statuses A = (initA ++ [sA])%list ->
         mstateTask.Statuses B = [] ->
         (i < j)%nat).
Proof.
  intros Hget HA HB.
  destruct (GetLog_tasks_sorted c appID tasks Hget) as (group & Hgroup & Hnth).
  apply Hnth in HA, HB.
  assert (Hlast : forall t, In t (sort_Sort Less group) ->
                            mstateTask.LastState t = findTaskLastState t).
  { intros t Hin. apply (proj1 (sort_Sort_In group t)) in Hin.
    apply (findTask_LastState (State c) appID).
    destruct Hgroup as [->| ->]; [left | right]; exact Hin. }
  pose proof (Hlast A (nth_error_In _ _ HA)) as HlastA.
  pose proof (Hlast B (nth_error_In _ _ HB)) as HlastB.
  assert (Hbefore : Less A B = true -> (i < j)%nat).
  { intros Hless. destruct (Nat.lt_trichotomy i j) as [Hij|[Hij|Hij]]; [exact Hij| |].
    - subst j. rewrite HA in HB. injection HB as <-.
      apply Less_asym in Hless as Hno. congruence.
    - pose proof (sort_Sort_ordered group j i B A HB HA Hij). congruence. }
  split.
  - intros initA sA initB sB HsA HsB Hts. apply Hbefore.
    unfold Less. rewrite HlastA, HlastB.
    rewrite (findTaskLastState_last A initA sA HsA), (findTaskLastState_last B initB sB HsB).
    apply Z.ltb_lt. lia.
  - intros initA sA HsA HsB. apply Hbefore.
    unfold Less. rewrite HlastA, HlastB.
    now rewrite (findTaskLastState_last A initA sA HsA), (findTaskLastState_none B HsB).
Qed.

End Ordering.

Example GetLog_tasks_threeRuns :
  GetLog_tasks insertionSort (threeRuns false false) "webapp"
  = Ok [withLastState runNew; withLastState runOld; withLastState runSilent].
Proof. reflexivity. Qed.

Example GetLog_tasks_latest :
  GetLog_tasks insertionSort (threeRuns false true) "webapp" = Ok [withLastState runNew].
Proof. reflexivity. Qed.

Lemma GetLog_order_witness :
  GetLog_tasks insertionSort (threeRuns false false) "webapp"
  = Ok [withLastState runNew; withLastState runOld; withLastState runSilent]
  /\ (0 < 1)%nat /\ (1 < 2)%nat.
Proof.
  split; [reflexivity|]. split.
  - refine (proj1 (GetLog_order insertionSort insertionSort_contract
                                (threeRuns false false) "webapp"
                                [withLastState runNew; withLastState runOld;
                                 withLastState runSilent]
                                0 1 (withLastState runNew) (withLastState runOld) _ _ _)
                  [] (mstateTaskStatus.mk 20) [mstateTaskStatus.mk 5] (mstateTaskStatus.mk 10) _ _ _);
      reflexivity.
  - refine (proj2 (GetLog_order insertionSort insertionSort_contract
                                (threeRuns false false) "webapp"
                                [withLastState runNew; withLastState runOld;
                                 withLastState runSilent]
                                1 2 (withLastState runOld) (withLastState runSilent) _ _ _)
                  [mstateTaskStatus.mk 5] (mstateTaskStatus.mk 10) _ _);
      reflexivity.
Defined.

(** ** Merging the tailers' channels *)

Lemma setNth_other (A : Type) (l : list A) (i j : nat) (x : A) :
  j <> i -> nth_error (setNth i x l) j = nth_error l j.
Proof.
  revert i j. induction l as [|y l IH]; intros [|i] [|j] H; cbn [setNth nth_error];
    try reflexivity; try contradiction.
  apply IH. congruence.
Qed.

(** Replacing an element by one that owes the same leaves what is owed;
    replacing it by one that owes one value less takes that value out. *)
Lemma flat_map_setNth (A B : Type) (f : A -> list B) (l : list A) (i : nat) (x y : A) :
  nth_error l i = Some x -> f y = f x -> flat_map f (setNth i y l) = flat_map f l.
Proof.
  revert i. induction l as [|z l IH]; intros [|i] H Hf; cbn [setNth nth_error flat_map] in *;
    try discriminate.
  - injection H as ->. now rewrite Hf.
  - now rewrite (IH i H Hf).
Qed.

Lemma flat_map_setNth_cons (A B : Type) (f : A -> list B) (l : list A) (i : nat)
      (x y : A) (n : B) :
  nth_error l i = Some x -> f x = n :: f y ->
  Permutation (flat_map f l) (n :: flat_map f (setNth i y l)).
Proof.
  revert i. induction l as [|z l IH]; intros [|i] H Hf; cbn [setNth nth_error flat_map] in *;
    try discriminate.
  - injection H as ->. rewrite Hf. reflexivity.
  - rewrite (IH i H Hf). symmetry. apply Permutation_middle.
Qed.

Lemma list_sum_setNth (A : Type) (f : A -> nat) (l : list A) (i : nat) (x y : A) :
  nth_error l i = Some x -> f x = S (f y) ->
  list_sum (map f l) = S (list_sum (map f (setNth i y l))).
Proof.
  unfold list_sum.
  revert i. induction l as [|z l IH]; intros [|i] H Hf;
    cbn [setNth nth_error map fold_right] in *; try discriminate.
  - injection H as ->. rewrite Hf. reflexivity.
  - rewrite (IH i H Hf). lia.
Qed.

(** A step moves one value from what is owed to what is delivered, or
    moves none. *)
Lemma fire_accounts (m : move) (st st' : merged) :
  fire m st = Some st' ->
  Permutation (delivered st' ++ flat_map owed (inputs st'))
              (delivered st ++ flat_map owed (inputs st)).
Proof.
  destruct m as [i|i|i|]; cbn [fire].
  - destruct (nth_error (inputs st) i) as [[[[|n rest] cl] [|n'|]]|] eqn:E;
      try discriminate.
    intros [= <-]. cbn [delivered inputs].
    now rewrite (flat_map_setNth _ _ owed _ i _
                                 ({| pending := rest; closes := cl |}, Sending n) E eq_refl).
  - destruct (nth_error (inputs st) i) as [[[[|n rest] [|]] [|n'|]]|] eqn:E;
      try discriminate.
    intros [= <-]. cbn [delivered inputs].
    now rewrite (flat_map_setNth _ _ owed _ i _
                                 ({| pending := []; closes := true |}, Finished) E eq_refl).
  - destruct (nth_error (inputs st) i) as [[c [|n|]]|] eqn:E; try discriminate.
    intros [= <-]. cbn [delivered inputs].
    rewrite <- app_assoc. apply Permutation_app_head. cbn [app].
    symmetry. exact (flat_map_setNth_cons _ _ owed _ i _ (c, Receiving) n E eq_refl).
  - destruct (_ && _); [|discriminate]. intros [= <-]. reflexivity.
Qed.

Lemma run_accounts (schedule : list move) (st st' : merged) :
  run schedule st = Some st' ->
  Permutation (delivered st' ++ flat_map owed (inputs st'))
              (delivered st ++ flat_map owed (inputs st)).
Proof.
  revert st. induction schedule as [|m schedule IH]; intros st; cbn [run].
  - intros [= <-]. reflexivity.
  - destruct (fire m st) as [st1|] eqn:E; [|discriminate].
    intros H. rewrite (IH st1 H). exact (fire_accounts m st st1 E).
Qed.

Lemma merge_owes (cs : list source) :
  flat_map owed (inputs (merge cs)) = flat_map pending cs.
Proof.
  unfold merge. cbn [inputs].
  induction cs as [|c cs IH]; cbn [map flat_map]; [reflexivity|].
  now rewrite IH.
Qed.

(** Every step is one of the steps left. *)
Lemma fire_weight (m : move) (st st' : merged) :
  fire m st = Some st' -> weight st = S (weight st').
Proof.
  unfold weight. destruct m as [i|i|i|]; cbn [fire].
  - destruct (nth_error (inputs st) i) as [[[[|n rest] cl] [|n'|]]|] eqn:E;
      try discriminate.
    intros [= <-]. cbn [inputs outClosed].
    rewrite (list_sum_setNth _ stepsLeft _ i _ ({| pending := rest; closes := cl |}, Sending n) E).
    + lia.
    + unfold stepsLeft. cbn [fst snd pending closes List.length]. lia.
  - destruct (nth_error (inputs st) i) as [[[[|n rest] [|]] [|n'|]]|] eqn:E;
      try discriminate.
    intros [= <-]. cbn [inputs outClosed].
    rewrite (list_sum_setNth _ stepsLeft _ i _ ({| pending := []; closes := true |}, Finished) E).
    + lia.
    + reflexivity.
  - destruct (nth_error (inputs st) i) as [[c [|n|]]|] eqn:E; try discriminate.
    intros [= <-]. cbn [inputs outClosed].
    rewrite (list_sum_setNth _ stepsLeft _ i _ (c, Receiving) E).
    + lia.
    + unfold stepsLeft. cbn [fst snd]. lia.
  - destruct (forallb _ _ && negb (outClosed st)) eqn:E; [|discriminate].
    intros [= <-]. cbn [inputs outClosed].
    apply andb_true_iff in E as [_ E]. apply negb_true_iff in E. rewrite E. lia.
Qed.

Lemma run_weight (schedule : list move) (st st' : merged) :
  run schedule st = Some st' -> weight st = (List.length schedule + weight st')%nat.
Proof.
  revert st. induction schedule as [|m schedule IH]; intros st; cbn [run List.length].
  - intros [= <-]. reflexivity.
  - destruct (fire m st) as [st1|] eqn:E; [|discriminate].
    intros H. rewrite (fire_weight m st st1 E), (IH st1 H). lia.
Qed.

Lemma fire_out_of_range (st : merged) (i : nat) :
  (List.length (inputs st) <= i)%nat ->
  fire (Recv i) st = None /\ fire (Forward i) st = None.
Proof.
  intros H. apply nth_error_None in H. cbn [fire]. now rewrite H.
Qed.

Lemma flat_map_nothing (A B : Type) (f : A -> list B) (l : list A) :
  (forall i x, nth_error l i = Some x -> f x = []) -> flat_map f l = [].
Proof.
  induction l as [|z l IH]; intros H; cbn [flat_map]; [reflexivity|].
  rewrite (H 0%nat z eq_refl), IH; [reflexivity|].
  intros i x Hi. exact (H (S i) x Hi).
Qed.

(** Once no goroutine can receive or hand over, nothing is owed. *)
Lemma quiescent_owes_nothing (st : merged) :
  quiescent st -> flat_map owed (inputs st) = [].
Proof.
  intros Hq. apply flat_map_nothing. intros i [[pend cl] fw] Hi.
  destruct (Hq i) as [Hrecv Hfwd]. cbn [fire] in Hrecv, Hfwd. rewrite Hi in Hrecv, Hfwd.
  destruct fw as [|n|]; [|discriminate|reflexivity].
  destruct pend as [|n rest]; [reflexivity | discriminate].
Qed.

(** A state is quiescent, or some goroutine can take a step. *)
Lemma quiescent_or_step (st : merged) :
  quiescent st
  \/ exists i st', fire (Recv i) st = Some st' \/ fire (Forward i) st = Some st'.
Proof.
  assert (H : forall k,
             (forall i, (i < k)%nat ->
                        fire (Recv i) st = None /\ fire (Forward i) st = None)
             \/ exists i st', fire (Recv i) st = Some st' \/ fire (Forward i) st = Some st').
  { induction k as [|k [IH|IH]]; [left; lia | | now right].
    destruct (fire (Recv k) st) as [st'|] eqn:Erecv; [right; eauto|].
    destruct (fire (Forward k) st) as [st'|] eqn:Efwd; [right; eauto|].
    left. intros i Hi. destruct (Nat.eq_dec i k) as [->|Hne]; [auto|].
    apply IH. lia. }
  destruct (H (List.length (inputs st))) as [Hq|Hstep]; [left | now right].
  intros i. destruct (Nat.lt_ge_cases i (List.length (inputs st))) as [Hi|Hi].
  - now apply Hq.
  - now apply fire_out_of_range.
Qed.

(** Nothing blocks for ever: from every state the goroutines can run on
    until none of them can receive or hand over. *)
Lemma can_finish (st : merged) :
  exists schedule st', run schedule st = Some st' /\ quiescent st'.
Proof.
  remember (weight st) as n eqn:Hn. revert st Hn.
  induction n as [n IH] using lt_wf_ind. intros st Hn.
  destruct (quiescent_or_step st) as [Hq|(i & st1 & Hstep)].
  - exists [], st. split; [reflexivity | exact Hq].
  - assert (Hfire : exists m, fire m st = Some st1).
    { destruct Hstep; [exists (Recv i) | exists (Forward i)]; assumption. }
    destruct Hfire as [m Hfire].
    pose proof (fire_weight m st st1 Hfire) as Hw.
    destruct (IH (weight st1) ltac:(lia) st1 eq_refl) as (schedule & st' & Hrun & Hq).
    exists (m :: schedule), st'. split; [|exact Hq].
    cbn [run]. now rewrite Hfire.
Qed.

(** A goroutine whose input has a value receives it and hands it over,
    whatever the other goroutines are doing, and leaves them as they
    are. *)
Lemma forward_alone (st : merged) (i : nat) (n : string) (rest : list string) (cl : bool) :
  nth_error (inputs st) i = Some ({| pending := n :: rest; closes := cl |}, Receiving) ->
  exists st',
    run [Recv i; Forward i] st = Some st'
    /\ delivered st' = (delivered st ++ [n])%list
    /\ forall j, j <> i -> nth_error (inputs st') j = nth_error (inputs st) j.
Proof.
  intros Hi. cbn [run fire]. rewrite Hi. cbn [inputs delivered outClosed].
  assert (Hlen : (i < List.length (inputs st))%nat)
    by (apply nth_error_Some; congruence).
  assert (Hset : forall (x : source * forwarder) l,
             (i < List.length l)%nat -> nth_error (setNth i x l) i = Some x).
  { intros x l. revert i Hi Hlen. clear. intros i _ _. revert i.
    induction l as [|y l IHl]; intros [|i] H; cbn [setNth nth_error List.length] in *;
      try lia; auto.
    apply IHl. lia. }
  rewrite (Hset _ _ Hlen). eexists. split; [reflexivity|].
  cbn [delivered inputs]. split; [reflexivity|].
  intros j Hj. now rewrite !setNth_other.
Qed.

Lemma run_app (s1 s2 : list move) (st : merged) :
  run (s1 ++ s2) st = match run s1 st with
                      | Some st1 => run s2 st1
                      | None => None
                      end.
Proof.
  revert st. induction s1 as [|m s1 IH]; intros st; cbn [app run]; [reflexivity|].
  destruct (fire m st); [apply IH | reflexivity].
Qed.

Lemma run_merge_accounts (cs : list source) (schedule : list move) (st : merged) :
  run schedule (merge cs) = Some st ->
  Permutation (delivered st ++ flat_map owed (inputs st)) (flat_map pending cs).
Proof.
  intros H. rewrite (run_accounts schedule _ _ H), merge_owes. reflexivity.
Qed.

Lemma run_merge_complete (cs : list source) (schedule : list move) (st : merged) :
  run schedule (merge cs) = Some st -> quiescent st ->
  Permutation (delivered st) (flat_map pending cs).
Proof.
  intros H Hq. rewrite <- (run_merge_accounts cs schedule st H).
  now rewrite (quiescent_owes_nothing st Hq), app_nil_r.
Qed.

(** C9. With two input channels that deliver one chunk each, whatever the
    scheduler does, no chunk is lost or duplicated on the way; when the
    goroutines of [merge] have nothing left to do, the reader has
    received both chunks, each once, in one order or the other; they can
    always get there, and both orders occur.  With any number of inputs,
    none included, what is delivered and what is still owed make up what
    the inputs deliver, and the run is finite.  A goroutine forwards the
    value of its input whatever the state of the other inputs. *)
Theorem merge_delivers_each_once :
  (forall (a b : string) (clA clB : bool) (schedule : list move) (st : merged),
      run schedule (merge [oneChunk a clA; oneChunk b clB]) = Some st ->
      Permutation (delivered st ++ flat_map owed (inputs st)) [a; b]
      /\ (quiescent st -> delivered st = [a; b] \/ delivered st = [b; a])
      /\ exists more st',
          run (schedule ++ more) (merge [oneChunk a clA; oneChunk b clB]) = Some st'
          /\ quiescent st')
  /\ (forall (a b : string) (clA clB : bool),
         exists s1 s2 st1 st2,
           run s1 (merge [oneChunk a clA; oneChunk b clB]) = Some st1
           /\ quiescent st1 /\ delivered st1 = [a; b]
           /\ run s2 (merge [oneChunk a clA; oneChunk b clB]) = Some st2
           /\ quiescent st2 /\ delivered st2 = [b; a])
  /\ (forall (cs : list source) (schedule : list move) (st : merged),
         run schedule (merge cs) = Some st ->
         Permutation (delivered st ++ flat_map owed (inputs st)) (flat_map pending cs)
         /\ (quiescent st -> Permutation (delivered st) (flat_map pending cs))
         /\ (List.length schedule <= weight (merge cs))%nat)
  /\ (forall (schedule : list move) (st : merged),
         run schedule (merge []) = Some st -> delivered st = [])
  /\ (forall (st : merged) (i : nat) (n : string) (rest : list string) (cl : bool),
         nth_error (inputs st) i = Some ({| pending := n :: rest; closes := cl |}, Receiving) ->
         exists st',
           run [Recv i; Forward i] st = Some st'
           /\ delivered st' = (delivered st ++ [n])%list
           /\ forall j, j <> i -> nth_error (inputs st') j = nth_error (inputs st) j).
Proof.
  split; [|split; [|split; [|split]]].
  - intros a b clA clB schedule st Hrun.
    pose proof (run_merge_accounts _ schedule st Hrun) as Hacc.
    cbn [flat_map oneChunk pending app] in Hacc.
    split; [exact Hacc|]. split.
    + intros Hq. rewrite (quiescent_owes_nothing st Hq), app_nil_r in Hacc.
      symmetry in Hacc. apply Permutation_length_2_inv in Hacc. exact Hacc.
    + destruct (can_finish st) as (more & st' & Hmore & Hq).
      exists more, st'. split; [|exact Hq].
      now rewrite run_app, Hrun.
  - intros a b clA clB.
    exists [Recv 0%nat; Forward 0%nat; Recv 1%nat; Forward 1%nat],
           [Recv 1%nat; Forward 1%nat; Recv 0%nat; Forward 0%nat].
    do 2 eexists.
    split; [reflexivity|]. split; [|split; [reflexivity|]].
    { intros [|[|[|i]]]; split; reflexivity. }
    split; [reflexivity|]. split; [|reflexivity].
    intros [|[|[|i]]]; split; reflexivity.
  - intros cs schedule st Hrun.
    split; [exact (run_merge_accounts cs schedule st Hrun)|].
    split; [exact (run_merge_complete cs schedule st Hrun)|].
    rewrite (run_weight schedule _ _ Hrun). lia.
  - intros schedule st Hrun.
    pose proof (run_merge_accounts [] schedule st Hrun) as Hacc.
    cbn [flat_map] in Hacc. symmetry in Hacc. apply Permutation_nil in Hacc.
    now apply app_eq_nil in Hacc.
  - exact forward_alone.
Qed.

Example merge_interleaved :
  option_map delivered
             (run [Recv 1%nat; Recv 0%nat; Forward 0%nat; Forward 1%nat]
                  (merge [oneChunk "first" false; oneChunk "second" false]))
  = Some ["first"; "second"].
Proof. reflexivity. Qed.

Example merge_nothing_to_forward :
  run [Forward 0%nat] (merge [oneChunk "first" false]) = None.
Proof. reflexivity. Qed.

Example merge_no_sources :
  run [CloseOut] (merge []) = Some {| inputs := []; delivered := []; outClosed := true |}.
Proof. reflexivity. Qed.

Lemma merge_delivers_each_once_witness :
  delivered {| inputs := [({| pending := []; closes := false |}, Receiving);
                          ({| pending := []; closes := false |}, Receiving)];
               delivered := ["second"; "first"];
               outClosed := false |}
  = ["first"; "second"]
  \/ delivered {| inputs := [({| pending := []; closes := false |}, Receiving);
                             ({| pending := []; closes := false |}, Receiving)];
                  delivered := ["second"; "first"];
                  outClosed := false |}
     = ["second"; "first"].
Proof.
  destruct (proj1 merge_delivers_each_once "first" "second" false false
                  [Recv 1%nat; Recv 0%nat; Forward 1%nat; Forward 0%nat]
                  _ eq_refl) as (_ & H & _).
  apply H. intros [|[|[|i]]]; split; reflexivity.
Defined.

(** ** Application names from paths *)

Example GetAppNameForPath_group :
  GetAppNameForPath "/prod/web/api" = "api.web.prod".
Proof. reflexivity. Qed.

Lemma setNth_length (A : Type) (i : nat) (x : A) (l : list A) :
  List.length (setNth i x l) = List.length l.
Proof.
  revert i. induction l as [|y l IH]; intros [|i]; cbn [setNth List.length]; auto.
Qed.

Lemma setNth_same (A : Type) (i : nat) (x : A) (l : list A) :
  (i < List.length l)%nat -> nth_error (setNth i x l) i = Some x.
Proof.
  revert i. induction l as [|y l IH]; intros [|i] H; cbn [setNth nth_error List.length] in *;
    try lia; auto.
  apply IH. lia.
Qed.

Lemma swap_length (A : Type) (i j : nat) (s : list A) :
  List.length (swap i j s) = List.length s.
Proof.
  unfold swap. destruct (nth_error s i), (nth_error s j); try reflexivity.
  now rewrite !setNth_length.
Qed.

(** After a swap the two places hold each other's element and every other
    place holds its own. *)
Lemma nth_error_swap (A : Type) (i j k : nat) (s : list A) :
  (i < List.length s)%nat -> (j < List.length s)%nat ->
  nth_error (swap i j s) k
  = if Nat.eqb k i then nth_error s j
    else if Nat.eqb k j then nth_error s i
         else nth_error s k.
Proof.
  intros Hi Hj. unfold swap.
  destruct (nth_error s i) as [x|] eqn:Ex; [|apply nth_error_None in Ex; lia].
  destruct (nth_error s j) as [y|] eqn:Ey; [|apply nth_error_None in Ey; lia].
  destruct (Nat.eqb_spec k i) as [->|Hki].
  - apply setNth_same. now rewrite setNth_length.
  - rewrite setNth_other by exact Hki.
    destruct (Nat.eqb_spec k j) as [->|Hkj].
    + now apply setNth_same.
    + now apply setNth_other.
Qed.

Lemma reversePathFrom_length (n i : nat) (s : list string) :
  List.length (reversePathFrom n i s) = List.length s.
Proof.
  revert i s. induction n as [|n IH]; intros i s; cbn [reversePathFrom]; [reflexivity|].
  now rewrite IH, swap_length.
Qed.

(** The loop's invariant: after the turns [i .. i+n-1] the places
    [i .. i+n-1] and their mirror images hold each other's elements, and
    the other places are as they were. *)
Lemma reversePathFrom_nth (n i k : nat) (s : list string) :
  (2 * (i + n) <= List.length s)%nat ->
  nth_error (reversePathFrom n i s) k
  = if (Nat.leb i k && Nat.ltb k (i + n))
       || (Nat.leb (List.length s - i - n) k && Nat.ltb k (List.length s - i))
    then nth_error s (List.length s - 1 - k)
    else nth_error s k.
Proof.
  revert i s. induction n as [|n IH]; intros i s Hn; cbn [reversePathFrom].
  - replace ((Nat.leb i k && Nat.ltb k (i + 0))
             || (Nat.leb (List.length s - i - 0) k && Nat.ltb k (List.length s - i)))
      with false; [reflexivity|].
    symmetry. apply orb_false_iff.
    split; apply andb_false_iff;
      destruct (Nat.leb_spec i k), (Nat.ltb_spec k (i + 0)),
               (Nat.leb_spec (List.length s - i - 0) k),
               (Nat.ltb_spec k (List.length s - i)); auto; lia.
  - rewrite IH by (rewrite swap_length; lia). rewrite swap_length.
    rewrite !nth_error_swap by lia.
    destruct (Nat.leb_spec (S i) k), (Nat.ltb_spec k (S i + n)),
             (Nat.leb_spec (List.length s - S i - n) k),
             (Nat.ltb_spec k (List.length s - S i)),
             (Nat.leb_spec i k), (Nat.ltb_spec k (i + S n)),
             (Nat.leb_spec (List.length s - i - S n) k),
             (Nat.ltb_spec k (List.length s - i)),
             (Nat.eqb_spec (List.length s - 1 - k) i),
             (Nat.eqb_spec (List.length s - 1 - k) (List.length s - i - 1)),
             (Nat.eqb_spec k i),
             (Nat.eqb_spec k (List.length s - i - 1));
      cbn [andb orb]; try lia; try reflexivity; f_equal; lia.
Qed.

Lemma reversePath_is_rev (s : list string) : reversePath s = rev s.
Proof.
  apply nth_error_ext. intros k. unfold reversePath.
  pose proof (Nat.Div0.mul_div_le (List.length s) 2) as Hhalf.
  pose proof (Nat.div_mod_eq (List.length s) 2) as Hdiv.
  pose proof (Nat.mod_upper_bound (List.length s) 2 ltac:(lia)) as Hmod.
  rewrite reversePathFrom_nth by lia.
  rewrite nth_error_rev.
  destruct (Nat.ltb_spec k (List.length s)) as [Hk|Hk].
  - destruct (Nat.leb_spec 0 k), (Nat.ltb_spec k (0 + List.length s / 2)),
             (Nat.leb_spec (List.length s - 0 - List.length s / 2) k),
             (Nat.ltb_spec k (List.length s - 0));
      cbn [andb orb]; try lia; try (f_equal; lia).
  - assert (Hnone : nth_error s k = None) by now apply nth_error_None.
    destruct (Nat.leb_spec 0 k), (Nat.ltb_spec k (0 + List.length s / 2)),
             (Nat.leb_spec (List.length s - 0 - List.length s / 2) k),
             (Nat.ltb_spec k (List.length s - 0));
      cbn [andb orb]; try lia; exact Hnone.
Qed.

(** X1. [reversePath] answers the elements of the slice in reverse order,
    for a slice of any length, odd or even, empty included; reversing
    twice gives the slice back. *)
Theorem reversePath_reverses (s : list string) :
  reversePath s = rev s /\ reversePath (reversePath s) = s.
Proof.
  split; [apply reversePath_is_rev|].
  rewrite !reversePath_is_rev. apply rev_involutive.
Qed.

Lemma Split_Join (segs : list string) :
  segs <> [] ->
  Forall (fun seg => hasByte slash seg = false) segs ->
  Split (Join segs "/") slash = segs.
Proof.
  induction segs as [|x segs IH]; intros Hne Hall; [contradiction|].
  apply Forall_cons_iff in Hall as [Hx Hall].
  destruct segs as [|y segs].
  - cbn [Join]. now apply Split_absent.
  - change (Join (x :: y :: segs) "/") with (x ++ String slash (Join (y :: segs) "/"))%string.
    rewrite (Split_first slash x _ Hx). f_equal.
    apply IH; [discriminate | exact Hall].
Qed.

Lemma Join_head_not_slash (first : string) (rest : list string) :
  first <> EmptyString -> hasByte slash first = false ->
  HasPrefix (Join (first :: rest) "/") "/" = false.
Proof.
  intros Hne Hno. destruct first as [|a first]; [contradiction|].
  cbn [hasByte] in Hno. apply orb_false_iff in Hno as [Ha _].
  unfold HasPrefix. destruct rest as [|y rest].
  - cbn [Join]. change "/" with (str slash). now rewrite prefix_str.
  - change (Join (String a first :: y :: rest) "/")
      with (String a (first ++ "/" ++ Join (y :: rest) "/"))%string.
    change "/" with (str slash) at 1. now rewrite prefix_str.
Qed.

(** X2. On a path made of segments joined by ['/'], with or without a
    leading ['/'], [GetAppNameForPath] answers the segments in reverse
    order joined by ['.']. *)
Theorem GetAppNameForPath_segments (first : string) (rest : list string) :
  first <> EmptyString ->
  Forall (fun seg => hasByte slash seg = false) (first :: rest) ->
  GetAppNameForPath ("/" ++ Join (first :: rest) "/") = Join (rev (first :: rest)) "."
  /\ GetAppNameForPath (Join (first :: rest) "/") = Join (rev (first :: rest)) ".".
Proof.
  intros Hne Hall.
  assert (Hsplit : Split (Join (first :: rest) "/") slash = first :: rest)
    by (apply Split_Join; [discriminate | exact Hall]).
  apply Forall_cons_iff in Hall as [Hfirst _].
  split; unfold GetAppNameForPath; cbv zeta.
  - change ("/" ++ Join (first :: rest) "/")%string
      with (String slash (Join (first :: rest) "/")).
    replace (HasPrefix (String slash (Join (first :: rest) "/")) "/") with true
      by (unfold HasPrefix; change "/" with (str slash); now rewrite prefix_str, Ascii.eqb_refl).
    change (Split (String slash (Join (first :: rest) "/")) slash)
      with (EmptyString :: Split (Join (first :: rest) "/") slash).
    cbn [skipn]. now rewrite Hsplit, reversePath_is_rev.
  - rewrite (Join_head_not_slash first rest Hne Hfirst), Hsplit.
    now rewrite reversePath_is_rev.
Qed.

Lemma GetAppNameForPath_segments_witness :
  GetAppNameForPath ("/" ++ Join ["prod"; "web"; "api"] "/") = Join (rev ["prod"; "web"; "api"]) "."
  /\ GetAppNameForPath (Join ["prod"; "web"; "api"] "/") = Join (rev ["prod"; "web"; "api"]) ".".
Proof.
  apply (GetAppNameForPath_segments "prod" ["web"; "api"]).
  - discriminate.
  - repeat constructor.
Defined.

(** ** Application names of the cluster *)

Lemma wrap_add_l (a b : Z) : GoInt.wrap (GoInt.wrap a + b) = GoInt.wrap (a + b).
Proof.
  unfold GoInt.wrap.
  replace ((a + 2 ^ 63) mod 2 ^ 64 - 2 ^ 63 + b + 2 ^ 63)
    with ((a + 2 ^ 63) mod 2 ^ 64 + b) by lia.
  rewrite Zplus_mod_idemp_l. f_equal. f_equal. lia.
Qed.

Lemma find_increment (m : StringMap.t Z) (x y : string) :
  StringMap.find y (increment m x)
  = if String.eqb x y then Some (GoInt.wrap (valueOf m x + 1)) else StringMap.find y m.
Proof.
  unfold increment, GoInt.add. rewrite StringMapFacts.add_o.
  destruct (OrderedTypeEx.String_as_OT.eq_dec x y) as [E|E];
    destruct (String.eqb_spec x y); try reflexivity; contradiction.
Qed.

(** Counting one list of tasks into a map. *)
Lemma count_into (name : string) (tasks : list mstateTask.t) (m : StringMap.t Z) :
  StringMap.find name
                 (fold_left (fun (m : StringMap.t Z) (task : mstateTask.t) =>
                               increment m (mstateTask.Name task)) tasks m)
  = match List.length (filter (fun task => (mstateTask.Name task =? name)%string) tasks) with
    | O => StringMap.find name m
    | S k => Some (GoInt.wrap (valueOf m name + Z.of_nat (S k)))
    end.
Proof.
  revert m. induction tasks as [|task tasks IH]; intros m; cbn [fold_left filter].
  - reflexivity.
  - rewrite IH. unfold valueOf at 1. rewrite !find_increment.
    destruct (String.eqb_spec (mstateTask.Name task) name) as [E|E].
    + rewrite E. cbn [List.length].
      destruct (List.length _) as [|k].
      * reflexivity.
      * f_equal. rewrite wrap_add_l. f_equal. lia.
    + reflexivity.
Qed.

Lemma fold_left_flat_map (A B C : Type) (f : C -> B -> C) (g : A -> list B)
      (l : list A) (c : C) :
  fold_left (fun c x => fold_left f (g x) c) l c = fold_left f (flat_map g l) c.
Proof.
  revert c. induction l as [|x l IH]; intros c; cbn [fold_left flat_map]; [reflexivity|].
  now rewrite fold_left_app, IH.
Qed.

Lemma findApps_find (state : masterState) (name : string) :
  StringMap.find name (findApps state)
  = match activeNamed state name with
    | O => None
    | S k => Some (GoInt.wrap (Z.of_nat (S k)))
    end.
Proof.
  unfold findApps, activeNamed.
  rewrite (fold_left_flat_map _ _ _
             (fun (m : StringMap.t Z) (task : mstateTask.t) =>
                increment m (mstateTask.Name task))
             Framework.Tasks).
  rewrite count_into. unfold valueOf. rewrite StringMapFacts.empty_o.
  destruct (List.length _); reflexivity.
Qed.

(** X3. [findApps] maps every name of an active task to the number of
    active tasks that have it, across all frameworks, and has no key for
    any other name; completed tasks are not counted. *)
Theorem findApps_counts (state : masterState) (name : string) :
  Z.of_nat (activeNamed state name) <= GoInt.maxInt ->
  StringMap.find name (findApps state)
  = if Nat.eqb (activeNamed state name) 0
    then None
    else Some (Z.of_nat (activeNamed state name)).
Proof.
  intros Hfits. rewrite findApps_find.
  destruct (activeNamed state name) as [|k]; [reflexivity|].
  cbn [Nat.eqb]. f_equal. apply wrap_inRange.
  unfold GoInt.inRange, GoInt.minInt. split; [|exact Hfits].
  change (- 2 ^ 63) with (-9223372036854775808). lia.
Qed.

Lemma findApps_counts_witness :
  StringMap.find "webapp" (findApps (State (threeRuns false false))) = Some 3
  /\ StringMap.find "database" (findApps (State (threeRuns false false))) = None.
Proof.
  split.
  - refine (findApps_counts (State (threeRuns false false)) "webapp" _).
    vm_compute. discriminate.
  - refine (findApps_counts (State (threeRuns false false)) "database" _).
    vm_compute. discriminate.
Defined.

Lemma findApps_Empty_iff (state : masterState) :
  StringMap.Empty (findApps state) <-> flat_map Framework.Tasks (Frameworks state) = [].
Proof.
  split.
  - intros Hempty.
    destruct (flat_map Framework.Tasks (Frameworks state)) as [|task tasks] eqn:E;
      [reflexivity | exfalso].
    pose proof (findApps_find state (mstateTask.Name task)) as Hfind.
    unfold activeNamed in Hfind. rewrite E in Hfind. cbn [filter] in Hfind.
    rewrite String.eqb_refl in Hfind. cbn [List.length] in Hfind.
    apply StringMapFacts.find_mapsto_iff in Hfind. exact (Hempty _ _ Hfind).
  - intros Hnone name v Hmaps.
    apply StringMapFacts.find_mapsto_iff in Hmaps.
    rewrite findApps_find in Hmaps. unfold activeNamed in Hmaps.
    rewrite Hnone in Hmaps. discriminate.
Qed.

(** X4. [GetAppNames] fails, with "Applications could not be retrieved",
    exactly when no framework of the state has an active task; otherwise
    it answers the map of [findApps]. *)
Theorem GetAppNames_outcomes (c : MesosClient) :
  (GetAppNames c = Err (Errorf "Applications could not be retrieved")
   <-> flat_map Framework.Tasks (Frameworks (State c)) = [])
  /\ (flat_map Framework.Tasks (Frameworks (State c)) <> [] ->
      GetAppNames c = Ok (findApps (State c))).
Proof.
  unfold GetAppNames. cbv zeta.
  rewrite <- findApps_Empty_iff.
  destruct (Z.of_nat (StringMap.cardinal (findApps (State c))) =? 0) eqn:E.
  - apply Z.eqb_eq in E.
    assert (Hempty : StringMap.Empty (findApps (State c)))
      by (apply StringMapProps.cardinal_inv_1; lia).
    split; [tauto | contradiction].
  - apply Z.eqb_neq in E.
    assert (Hnot : ~ StringMap.Empty (findApps (State c))).
    { intros Hempty. apply StringMapProps.cardinal_1 in Hempty. lia. }
    split; [|reflexivity].
    split; [discriminate | contradiction].
Qed.

(** ** The application of a task *)

(** The group the option points at, as [findTask] answers it. *)
Lemma findTask_group (c : MesosClient) (appID : string) :
  (if SearchCompletedTasks (Options c)
   then taskInfo.CompletedTasks (findTask (State c) appID)
   else taskInfo.Tasks (findTask (State c) appID))
  = map withLastState
        (filter (matchesApp appID) (flat_map (groupOf c) (Frameworks (State c)))).
Proof.
  unfold groupOf. destruct (SearchCompletedTasks (Options c)).
  - rewrite findTask_CompletedTasks. do 2 f_equal.
  - rewrite findTask_Tasks. do 2 f_equal.
Qed.

Lemma no_group_match_iff (c : MesosClient) (appID : string) :
  map withLastState
      (filter (matchesApp appID) (flat_map (groupOf c) (Frameworks (State c)))) = []
  <-> forall fw t0,
      In fw (Frameworks (State c)) -> In t0 (groupOf c fw) ->
      ~ (mstateTask.ID t0 = appID \/ mstateTask.Name t0 = appID).
Proof.
  split.
  - intros H fw t0 Hfw Ht0 Hm.
    assert (Hin : In (withLastState t0)
                     (map withLastState
                          (filter (matchesApp appID)
                                  (flat_map (groupOf c) (Frameworks (State c)))))).
    { apply in_selected. exists fw, t0. auto. }
    rewrite H in Hin. exact Hin.
  - intros H.
    destruct (map _ _) as [|t l] eqn:E; [reflexivity | exfalso].
    assert (Hin : In t (t :: l)) by now left.
    rewrite <- E in Hin. apply in_selected in Hin as (fw & t0 & Hfw & Ht0 & Hm & _).
    exact (H fw t0 Hfw Ht0 Hm).
Qed.

Lemma GetAppNameForTaskID_group (c : MesosClient) (taskID : string) :
  GetAppNameForTaskID c taskID
  = match map withLastState
              (filter (matchesApp taskID) (flat_map (groupOf c) (Frameworks (State c)))) with
    | task :: _ => Ok (mstateTask.Name task)
    | [] => Err NotFound
    end.
Proof.
  unfold GetAppNameForTaskID. cbv zeta. rewrite <- findTask_group.
  destruct (SearchCompletedTasks (Options c)); reflexivity.
Qed.

Lemma GetAppNameForTaskID_found (c : MesosClient) (taskID name : string) :
  GetAppNameForTaskID c taskID = Ok name ->
  exists fw t0,
    In fw (Frameworks (State c)) /\ In t0 (groupOf c fw)
    /\ mstateTask.Name t0 = name
    /\ (mstateTask.ID t0 = taskID \/ mstateTask.Name t0 = taskID).
Proof.
  rewrite GetAppNameForTaskID_group.
  destruct (map _ _) as [|task rest] eqn:E; [discriminate|].
  intros [= <-].
  assert (Hin : In task (task :: rest)) by now left.
  rewrite <- E in Hin. apply in_selected in Hin as (fw & t0 & Hfw & Ht0 & Hm & ->).
  exists fw, t0. rewrite withLastState_Name. auto.
Qed.

(** X5. [GetAppNameForTaskID] fails, with "application could not be
    found", exactly when no task of the group the client looks at (the
    completed tasks when [SearchCompletedTasks] is set, the active ones
    otherwise) has the identifier as its id or name; and a name it answers
    is the name of such a task, so it is the identifier itself or the name
    of a task whose id is the identifier. *)
Theorem GetAppNameForTaskID_outcomes (c : MesosClient) (taskID : string) :
  (GetAppNameForTaskID c taskID = Err NotFound
   <-> forall fw t0,
       In fw (Frameworks (State c)) -> In t0 (groupOf c fw) ->
       ~ (mstateTask.ID t0 = taskID \/ mstateTask.Name t0 = taskID))
  /\ (forall name,
         GetAppNameForTaskID c taskID = Ok name ->
         exists fw t0,
           In fw (Frameworks (State c)) /\ In t0 (groupOf c fw)
           /\ mstateTask.Name t0 = name
           /\ (mstateTask.ID t0 = taskID \/ name = taskID)).
Proof.
  split.
  - rewrite GetAppNameForTaskID_group, <- no_group_match_iff.
    destruct (map _ _) as [|task rest] eqn:E; [tauto | split; discriminate].
  - intros name Hok.
    destruct (GetAppNameForTaskID_found c taskID name Hok) as (fw & t0 & Hfw & Ht0 & Hn & Hm).
    exists fw, t0. repeat split; try assumption.
    destruct Hm as [Hm|Hm]; [now left | right; congruence].
Qed.

(** X6. A name that [GetAppNameForTaskID] answers can be looked up in
    turn: the same client finds a task under it, and when the client
    looks at active tasks [findApps] counts at least one task under
    it. *)
Theorem GetAppNameForTaskID_resolves (c : MesosClient) (taskID name : string) :
  GetAppNameForTaskID c taskID = Ok name ->
  (exists name', GetAppNameForTaskID c name = Ok name')
  /\ (SearchCompletedTasks (Options c) = false ->
      StringMap.find name (findApps (State c)) <> None).
Proof.
  intros Hok.
  destruct (GetAppNameForTaskID_found c taskID name Hok)
    as (fw & t0 & Hfw & Ht0 & Hname & _).
  split.
  - destruct (GetAppNameForTaskID c name) as [name'|e] eqn:E; [now exists name'|].
    exfalso. rewrite GetAppNameForTaskID_group in E.
    destruct (map _ _) as [|task rest] eqn:Esel; [|discriminate].
    exact (proj1 (no_group_match_iff c name) Esel fw t0 Hfw Ht0 (or_intror Hname)).
  - intros Hactive. rewrite findApps_find. unfold activeNamed.
    assert (Hin : In t0 (filter (fun task => (mstateTask.Name task =? name)%string)
                                (flat_map Framework.Tasks (Frameworks (State c))))).
    { apply filter_In. split.
      - apply in_flat_map. exists fw. split; [exact Hfw|].
        unfold groupOf in Ht0. now rewrite Hactive in Ht0.
      - now apply String.eqb_eq. }
    destruct (filter _ _) as [|x l]; [contradiction | cbn [List.length]; discriminate].
Qed.

Lemma GetAppNameForTaskID_resolves_witness :
  (exists name', GetAppNameForTaskID (client false false) "webapp" = Ok name')
  /\ (SearchCompletedTasks (Options (client false false)) = false ->
      StringMap.find "webapp" (findApps (State (client false false))) <> None).
Proof.
  apply (GetAppNameForTaskID_resolves (client false false) "webapp.1234abcd-5678" "webapp").
  reflexivity.
Defined.

Example GetAppNameForTaskID_completed :
  GetAppNameForTaskID (client true false) "webapp.1234abcd-5678" = Err NotFound.
Proof. reflexivity. Qed.

(** ** The tasks whose logs are fetched *)

Section Selection.

(** [sort.Sort], known by its promise only. *)
Variable sort_Sort :
  (mstateTask.t -> mstateTask.t -> bool) -> list mstateTask.t -> list mstateTask.t.
Hypothesis sort_Sort_contract : sortContract sort_Sort.

Lemma GetLog_tasks_group (c : MesosClient) (appID : string) :
  GetLog_tasks sort_Sort c appID
  = let sorted :=
      sort_Sort Less
                (map withLastState
                     (filter (matchesApp appID)
                             (flat_map (groupOf c) (Frameworks (State c))))) in
    match sorted with
    | [] => Err NotFound
    | first :: _ => Ok (if ShowLatestOnly (Options c) then [first] else sorted)
    end.
Proof.
  unfold GetLog_tasks. cbv zeta. rewrite findTask_group.
  destruct (sort_Sort Less _) as [|first rest]; [reflexivity|].
  replace (Z.of_nat (List.length (first :: rest)) =? 0) with false
    by (symmetry; apply Z.eqb_neq; cbn [List.length]; lia).
  reflexivity.
Qed.

(** X7. Whatever sort keeping the promise of [sort.Sort] orders the
    tasks, [GetLog] fails, with "application could not be found", exactly
    when no task of the group it looks at (the completed tasks when
    [SearchCompletedTasks] is set, the active ones otherwise) has the
    identifier as its id or name.  Otherwise it ranges over every such
    task exactly once, or, with [ShowLatestOnly], over one task only: the
    first of those it would range over without the option. *)
Theorem GetLog_tasks_selection (c : MesosClient) (appID : string) :
  (GetLog_tasks sort_Sort c appID = Err NotFound
   <-> forall fw t0,
       In fw (Frameworks (State c)) -> In t0 (groupOf c fw) ->
       ~ (mstateTask.ID t0 = appID \/ mstateTask.Name t0 = appID))
  /\ (forall tasks,
         GetLog_tasks sort_Sort c appID = Ok tasks ->
         ShowLatestOnly (Options c) = false ->
         Permutation tasks
                     (map withLastState
                          (filter (matchesApp appID)
                                  (flat_map (groupOf c) (Frameworks (State c))))))
  /\ (forall tasks,
         GetLog_tasks sort_Sort c appID = Ok tasks ->
         ShowLatestOnly (Options c) = true ->
         exists first rest,
           tasks = [first]
           /\ GetLog_tasks
                sort_Sort
                {| Host := Host c; Port := Port c; MasterURL := MasterURL c; State := State c;
                   Options := {| SearchCompletedTasks := SearchCompletedTasks (Options c);
                                 ShowLatestOnly := false |} |}
                appID
              = Ok (first :: rest)).
Proof.
  rewrite !GetLog_tasks_group. cbv zeta. cbn [State Options SearchCompletedTasks ShowLatestOnly].
  change (groupOf
            {| Host := Host c; Port := Port c; MasterURL := MasterURL c; State := State c;
               Options := {| SearchCompletedTasks := SearchCompletedTasks (Options c);
                             ShowLatestOnly := false |} |})
    with (groupOf c).
  rewrite <- no_group_match_iff.
  pose proof (proj1 (sort_Sort_contract
                       Less
                       (map withLastState
                            (filter (matchesApp appID)
                                    (flat_map (groupOf c) (Frameworks (State c)))))))
    as Hperm.
  destruct (sort_Sort Less _) as [|first rest].
  - apply Permutation_nil in Hperm.
    split; [split; [intros _; exact Hperm | reflexivity]|].
    split; discriminate.
  - split.
    + split; [discriminate|]. intros H. rewrite H in Hperm.
      symmetry in Hperm. now apply Permutation_nil in Hperm.
    + split.
      * intros tasks [= <-] ->. exact Hperm.
      * intros tasks [= <-] ->. now exists first, rest.
Qed.

End Selection.

Lemma GetLog_tasks_selection_witness :
  sortContract insertionSort
  /\ forall tasks,
      GetLog_tasks insertionSort (threeRuns false false) "webapp" = Ok tasks ->
      ShowLatestOnly (Options (threeRuns false false)) = false ->
      Permutation tasks
                  (map withLastState
                       (filter (matchesApp "webapp")
                               (flat_map (groupOf (threeRuns false false))
                                         (Frameworks (State (threeRuns false false)))))).
Proof.
  split; [exact insertionSort_contract|].
  exact (proj1 (proj2 (GetLog_tasks_selection insertionSort insertionSort_contract
                                              (threeRuns false false) "webapp"))).
Defined.

(** ** Fetching the logs *)

Section FetchingProperties.

Variable Body : Type.
Variable http_Get : string -> fetched Body.
Variable ioutil_ReadAll : Body -> fetched string.
Variable writeFile : string -> Body -> option string.
Variable filepath_Join : string -> string -> string.
Variable getSlaveState : URL.t -> fetched slaveState.t.
Variable sort_Sort :
  (mstateTask.t -> mstateTask.t -> bool) -> list mstateTask.t -> list mstateTask.t.

Local Abbreviation fetchLog' := (fetchLog Body http_Get ioutil_ReadAll writeFile filepath_Join getSlaveState).
Local Abbreviation GetLog_loop' :=
  (GetLog_loop Body http_Get ioutil_ReadAll writeFile filepath_Join getSlaveState).
Local Abbreviation GetLog' :=
  (GetLog Body http_Get ioutil_ReadAll writeFile filepath_Join getSlaveState sort_Sort).
Local Abbreviation download' := (download Body http_Get ioutil_ReadAll writeFile).

(** The loop answers the logs it had, followed by one per task, when every
    turn succeeds. *)
Lemma GetLog_loop_Ok (c : MesosClient) (appID : string) (logtype : LogType) (dir : string)
      (tasks : list mstateTask.t) (acc logs : list LogOut) :
  GetLog_loop' c appID logtype dir tasks acc = Ok logs
  <-> exists new,
      logs = (acc ++ new)%list
      /\ Forall2 (fun task log => fetchLog' c appID logtype dir task = Ok log) tasks new.
Proof.
  revert acc. induction tasks as [|task tasks IH]; intros acc; cbn [GetLog_loop].
  - split.
    + intros [= <-]. exists []. rewrite app_nil_r. split; [reflexivity | constructor].
    + intros (new & -> & Hall). inversion Hall. now rewrite app_nil_r.
  - destruct (fetchLog' c appID logtype dir task) as [log|err] eqn:E.
    + rewrite IH. split.
      * intros (new & -> & Hall). exists (log :: new).
        rewrite <- app_assoc. split; [reflexivity|]. now constructor.
      * intros (new & -> & Hall). inversion Hall as [|t l ts ls Hl Hrest]; subst.
        assert (l = log) by congruence. subst l.
        exists ls. rewrite <- app_assoc. split; [reflexivity | exact Hrest].
    + split; [discriminate|].
      intros (new & _ & Hall). inversion Hall; congruence.
Qed.

(** The loop fails with the error of the first turn that fails. *)
Lemma GetLog_loop_Err (c : MesosClient) (appID : string) (logtype : LogType) (dir : string)
      (tasks : list mstateTask.t) (acc : list LogOut) (err : error) :
  GetLog_loop' c appID logtype dir tasks acc = Err err
  <-> exists before task after,
      tasks = (before ++ task :: after)%list
      /\ (forall t, In t before -> exists log, fetchLog' c appID logtype dir t = Ok log)
      /\ fetchLog' c appID logtype dir task = Err err.
Proof.
  revert acc. induction tasks as [|task tasks IH]; intros acc; cbn [GetLog_loop].
  - split; [discriminate|]. intros (before & t & after & H & _). now destruct before.
  - destruct (fetchLog' c appID logtype dir task) as [log|e] eqn:E.
    + rewrite IH. split.
      * intros (before & t & after & -> & Hbefore & Hfail).
        exists (task :: before), t, after. split; [reflexivity|]. split; [|exact Hfail].
        intros t' [<-|Hin]; [now exists log | now apply Hbefore].
      * intros (before & t & after & Htasks & Hbefore & Hfail).
        destruct before as [|b before]; cbn [app] in Htasks; injection Htasks as <- ->.
        -- congruence.
        -- exists before, t, after. split; [reflexivity|]. split; [|exact Hfail].
           intros t' Hin. apply Hbefore. now right.
    + split.
      * intros [= <-]. exists [], task, tasks. split; [reflexivity|].
        split; [intros t [] | exact E].
      * intros (before & t & after & Htasks & Hbefore & Hfail).
        destruct before as [|b before]; cbn [app] in Htasks; injection Htasks as <- ->.
        -- congruence.
        -- destruct (Hbefore task (or_introl eq_refl)) as [log Hlog]. congruence.
Qed.

(** What a successful turn puts in the [LogOut]. *)
Lemma fetchLog_Ok (c : MesosClient) (appID : string) (logtype : LogType) (dir : string)
      (task : mstateTask.t) (log : LogOut) :
  fetchLog' c appID logtype dir task = Ok log ->
  TaskID log = mstateTask.ID task
  /\ AppID log = appID
  /\ exists info,
      getSlaveInfo getSlaveState c task = Ok info
      /\ download' (downloadURL info ++ LogType_String logtype)
                   (logFile filepath_Join dir task logtype)
         = Ok (Log log).
Proof.
  unfold fetchLog. destruct (getSlaveInfo getSlaveState c task) as [info|e]; [|discriminate].
  cbv zeta. destruct (download' _ _) as [data|e] eqn:E; [|discriminate].
  intros [= <-]. cbn [TaskID AppID Log]. repeat split. now exists info.
Qed.

(** [download] answers the file name when it is given one, and the text
    of the body otherwise. *)
Lemma download_Ok (slaveURL filename data : string) :
  download' slaveURL filename = Ok data ->
  exists body,
    http_Get slaveURL = Fetched body
    /\ if negb (filename =? "")%string
       then data = filename /\ writeFile filename body = None
       else ioutil_ReadAll body = Fetched data.
Proof.
  unfold download. destruct (http_Get slaveURL) as [body|msg]; [|discriminate].
  intros H. exists body. split; [reflexivity|].
  destruct (negb (filename =? "")%string).
  - destruct (writeFile filename body); [discriminate|]. injection H as <-. auto.
  - destruct (ioutil_ReadAll body); [|discriminate]. now injection H as <-.
Qed.

(** X8. Whatever [sort.Sort] makes of the tasks, when [GetLog] succeeds
    it answers one [LogOut] per task of the
    sequence it ranges over, in that order, each with the task's id and
    the identifier asked for; every task's sandbox was resolved and its
    log requested from the node's download address.  The [Log] field
    holds the text of the answer when no file name was made (no directory
    given), and otherwise the name of the file the answer was written to,
    not the text. *)
Theorem GetLog_success (c : MesosClient) (appID : string) (logtype : LogType) (dir : string)
        (logs : list LogOut) :
  GetLog' c appID logtype dir = Ok logs ->
  exists tasks,
    GetLog_tasks sort_Sort c appID = Ok tasks
    /\ map TaskID logs = map mstateTask.ID tasks
    /\ (forall log, In log logs -> AppID log = appID)
    /\ Forall2
         (fun task log =>
            exists info body,
              getSlaveInfo getSlaveState c task = Ok info
              /\ http_Get ("http://" ++ mstateSlave.Hostname (slaveInfo.Slave info)
                            ++ ":5051/files/download.json?path=" ++ slaveInfo.Directory info
                            ++ "/" ++ LogType_String logtype)
                 = Fetched body
              /\ if negb (logFile filepath_Join dir task logtype =? "")%string
                 then Log log = logFile filepath_Join dir task logtype
                      /\ writeFile (logFile filepath_Join dir task logtype) body = None
                 else ioutil_ReadAll body = Fetched (Log log))
         tasks logs.
Proof.
  unfold GetLog. destruct (GetLog_tasks sort_Sort c appID) as [tasks|e]; [|discriminate].
  intros H. apply GetLog_loop_Ok in H as (new & -> & Hall). cbn [app].
  exists tasks. split; [reflexivity|].
  induction Hall as [|task log tasks logs Hlog Hall IH].
  - split; [reflexivity|]. split; [intros log []|constructor].
  - destruct IH as (Hids & Happ & Hlogs).
    destruct (fetchLog_Ok c appID logtype dir task log Hlog) as (Hid & Hap & info & Hinfo & Hdl).
    split; [cbn [map]; now rewrite Hid, Hids|].
    split; [intros l [<-|Hin]; [exact Hap | now apply Happ]|].
    constructor; [|exact Hlogs].
    destruct (download_Ok _ _ _ Hdl) as (body & Hget & Hcontent).
    exists info, body. split; [exact Hinfo|]. split; [|exact Hcontent].
    rewrite <- Hget. unfold downloadURL. f_equal.
    now rewrite !app_assoc_string.
Qed.

(** X9. Whatever [sort.Sort] makes of the tasks, [GetLog] fails exactly when no task matches, or when the sandbox
    of a task of its sequence cannot be resolved or its log cannot be
    downloaded; the error is that of the first such task, the tasks
    before it having been fetched, and no log is answered. *)
Theorem GetLog_failure (c : MesosClient) (appID : string) (logtype : LogType) (dir : string)
        (err : error) :
  GetLog' c appID logtype dir = Err err
  <-> GetLog_tasks sort_Sort c appID = Err err
      \/ exists tasks before task after,
          GetLog_tasks sort_Sort c appID = Ok tasks
          /\ tasks = (before ++ task :: after)%list
          /\ (forall t, In t before -> exists log, fetchLog' c appID logtype dir t = Ok log)
          /\ (getSlaveInfo getSlaveState c task = Err err
              \/ exists info,
                  getSlaveInfo getSlaveState c task = Ok info
                  /\ download' (downloadURL info ++ LogType_String logtype)
                               (logFile filepath_Join dir task logtype)
                     = Err err).
Proof.
  assert (Hturn : forall task,
             fetchLog' c appID logtype dir task = Err err
             <-> getSlaveInfo getSlaveState c task = Err err
                 \/ exists info,
                     getSlaveInfo getSlaveState c task = Ok info
                     /\ download' (downloadURL info ++ LogType_String logtype)
                                  (logFile filepath_Join dir task logtype)
                        = Err err).
  { intros task. unfold fetchLog.
    destruct (getSlaveInfo getSlaveState c task) as [info|e].
    - cbv zeta. destruct (download' _ _) as [data|e] eqn:E.
      + split; [discriminate|]. intros [H|(info' & [= <-] & H)]; [discriminate|congruence].
      + split.
        * intros [= <-]. right. now exists info.
        * intros [H|(info' & [= <-] & H)]; [discriminate|congruence].
    - split.
      + intros [= <-]. now left.
      + intros [H|(info' & H & _)]; [congruence | discriminate]. }
  unfold GetLog. destruct (GetLog_tasks sort_Sort c appID) as [tasks|e].
  - rewrite GetLog_loop_Err. split.
    + intros (before & task & after & Htasks & Hbefore & Hfail). right.
      exists tasks, before, task, after. rewrite <- Hturn. auto.
    + intros [H|(tasks' & before & task & after & [= <-] & Htasks & Hbefore & Hfail)];
        [discriminate|].
      exists before, task, after. rewrite Hturn. auto.
  - split; [intros [= <-]; now left|].
    intros [[= <-]|(tasks' & before & task & after & H & _)]; [reflexivity | discriminate].
Qed.

End FetchingProperties.

Example GetLog_to_stdout :
  GetLog string echo readBody writeOk joinPath (reachable nodeState) insertionSort
         (client false false) "webapp" STDOUT ""
  = Ok [{| TaskID := "webapp.1234abcd-5678"; AppID := "webapp";
           Log := "http://node1.example:5051/files/download.json?path=/var/lib/mesos/slaves/S1/frameworks/F1/executors/E1/runs/latest/stdout" |}].
Proof. reflexivity. Qed.

Example GetLog_to_directory :
  GetLog string echo readBody writeOk joinPath (reachable nodeState) insertionSort
         (client false false) "webapp" STDERR "/tmp/logs"
  = Ok [{| TaskID := "webapp.1234abcd-5678"; AppID := "webapp";
           Log := "/tmp/logs/webapp.1234abcd-5678_stderr.txt" |}].
Proof. reflexivity. Qed.

Lemma GetLog_success_witness :
  exists tasks,
    GetLog_tasks insertionSort (client false false) "webapp" = Ok tasks
    /\ map TaskID [{| TaskID := "webapp.1234abcd-5678"; AppID := "webapp";
                      Log := "/tmp/logs/webapp.1234abcd-5678_stderr.txt" |}]
       = map mstateTask.ID tasks.
Proof.
  destruct (GetLog_success string echo readBody writeOk joinPath (reachable nodeState) insertionSort
                           (client false false) "webapp" STDERR "/tmp/logs" _ eq_refl)
    as (tasks & Htasks & Hids & _).
  exists tasks. split; [exact Htasks | exact Hids].
Defined.

(** ** Decorating page by page *)

Lemma Split_nonempty (s : string) (c : ascii) : Split s c <> [].
Proof. destruct (Split_head c s) as [pieces ->]. discriminate. Qed.

(** Splitting at a separator splits the pieces. *)
Lemma Split_app_sep (a b : string) (c : ascii) :
  Split (a ++ String c b) c = (Split a c ++ Split b c)%list.
Proof.
  induction a as [|x a IH].
  - change (EmptyString ++ String c b)%string with (String c b).
    cbn [Split]. now rewrite Ascii.eqb_refl.
  - change (String x a ++ String c b)%string with (String x (a ++ String c b)).
    cbn [Split]. destruct (Ascii.eqb x c); [now rewrite IH|].
    rewrite IH. destruct (Split a c) as [|piece pieces] eqn:E.
    + now apply Split_nonempty in E.
    + reflexivity.
Qed.

Lemma decorated_app_sep (prefix a b : string) :
  decorated prefix (a ++ String LF b) = (decorated prefix a ++ decorated prefix b)%string.
Proof.
  unfold decorated. rewrite Split_app_sep, filter_app, map_app.
  generalize (map (fun l => "[" ++ prefix ++ "] " ++ l ++ str LF) (filter nonEmpty (Split a LF)))%string.
  intros l. induction l as [|x l IH]; cbn [app fold_right]; [reflexivity|].
  now rewrite IH, app_assoc_string.
Qed.

(** The three outcomes of the id: the prefix [decorateLog] derives from
    it, or none. *)
Lemma decorateLog_cases (name : string) :
  (exists p s r,
      name = (p ++ "." ++ s ++ "-" ++ r)%string
      /\ hasByte dot p = false /\ hasByte dash s = false
      /\ forall data, decorateLog name data = Some (decorated (p ++ "." ++ s) data))
  \/ ((hasByte dot name = false
       \/ exists p r, name = (p ++ "." ++ r)%string
                      /\ hasByte dot p = false /\ hasByte dash r = false)
      /\ forall data, decorateLog name data = None).
Proof.
  destruct (hasByte dot name) eqn:Hdot.
  - destruct (hasByte_split dot name Hdot) as (p & rest & -> & Hp).
    destruct (hasByte dash rest) eqn:Hdash.
    + destruct (hasByte_split dash rest Hdash) as (s & r & -> & Hs).
      left. exists p, s, r. repeat split; try assumption.
      intros data. exact (decorateLog_shape p s r data Hp Hs).
    + right. split.
      * right. now exists p, rest.
      * intros data. now apply decorateLog_no_dash_after.
  - right. split; [now left|]. intros data. now apply decorateLog_no_dot.
Qed.

(** X10. [decorateLog] panics exactly on the ids that have no ['.'], or no
    ['-'] after their first ['.'], whatever the payload is: an id panics
    on every payload or on none. *)
Theorem decorateLog_panics_iff (name data : string) :
  (decorateLog name data = None
   <-> hasByte dot name = false
       \/ exists p r, name = (p ++ "." ++ r)%string
                      /\ hasByte dot p = false /\ hasByte dash r = false)
  /\ (forall data', decorateLog name data = None <-> decorateLog name data' = None).
Proof.
  destruct (decorateLog_cases name) as [(p & s & r & Hname & Hp & Hs & Hall)|[Hbad Hall]].
  - split.
    + rewrite Hall. split; [discriminate|].
      intros [Hdot|(p' & r' & Hname' & Hp' & Hr')]; exfalso.
      * rewrite Hname, hasByte_app in Hdot. apply orb_false_iff in Hdot as [_ Hdot].
        cbn [append hasByte] in Hdot. now rewrite Ascii.eqb_refl in Hdot.
      * pose proof (decorateLog_no_dash_after p' r' data Hp' Hr') as Hnone.
        change (String dot r') with ("." ++ r')%string in Hnone.
        rewrite <- Hname', Hall in Hnone. discriminate.
    + intros data'. rewrite !Hall. split; discriminate.
  - split.
    + rewrite Hall. tauto.
    + intros data'. rewrite !Hall. tauto.
Qed.

(** X11. Decorating two payloads that meet at a line feed gives the
    decoration of the first followed by that of the second: pages cut at
    line ends decorate as the whole does. *)
Theorem decorateLog_pages (name a b : string) :
  decorateLog name (a ++ str LF ++ b)
  = match decorateLog name a, decorateLog name b with
    | Some x, Some y => Some (x ++ y)%string
    | _, _ => None
    end.
Proof.
  change (a ++ str LF ++ b)%string with (a ++ String LF b)%string.
  destruct (decorateLog_cases name) as [(p & s & r & _ & _ & _ & Hall)|[_ Hall]].
  - rewrite !Hall. now rewrite decorated_app_sep.
  - now rewrite !Hall.
Qed.

Lemma decorated_line (prefix l : string) :
  l <> EmptyString -> hasByte LF l = false ->
  decorated prefix l = ("[" ++ prefix ++ "] " ++ l ++ str LF)%string.
Proof.
  intros Hne Hno. unfold decorated. rewrite (Split_absent LF l Hno).
  cbn [filter]. replace (nonEmpty l) with true.
  - cbn [map fold_right]. now rewrite app_empty_r.
  - symmetry. unfold nonEmpty. apply negb_true_iff. now apply String.eqb_neq.
Qed.

(** X12. A payload that is one line without its line feed comes out as a
    whole line: a line that a page boundary cuts in two is sent as two
    decorated lines, where the uncut line would be sent as one. *)
Theorem decorateLog_cut_line (p s r a b : string) :
  hasByte dot p = false -> hasByte dash s = false ->
  a <> EmptyString -> b <> EmptyString ->
  hasByte LF a = false -> hasByte LF b = false ->
  decorateLog (p ++ "." ++ s ++ "-" ++ r) a = Some ("[" ++ p ++ "." ++ s ++ "] " ++ a ++ str LF)
  /\ decorateLog (p ++ "." ++ s ++ "-" ++ r) b = Some ("[" ++ p ++ "." ++ s ++ "] " ++ b ++ str LF)
  /\ decorateLog (p ++ "." ++ s ++ "-" ++ r) (a ++ b)
     = Some ("[" ++ p ++ "." ++ s ++ "] " ++ a ++ b ++ str LF).
Proof.
  intros Hp Hs Ha Hb Hna Hnb.
  rewrite !(decorateLog_shape p s r _ Hp Hs).
  rewrite (decorated_line _ a Ha Hna), (decorated_line _ b Hb Hnb).
  rewrite decorated_line.
  - rewrite !app_assoc_string. repeat split.
  - destruct a; [contradiction | discriminate].
  - rewrite hasByte_app, Hna, Hnb. reflexivity.
Qed.

Lemma decorateLog_cut_line_witness :
  decorateLog ("webapp" ++ "." ++ "1234abcd" ++ "-" ++ "5678") "GET /ind"
  = Some ("[" ++ "webapp" ++ "." ++ "1234abcd" ++ "] " ++ "GET /ind" ++ str LF)
  /\ decorateLog ("webapp" ++ "." ++ "1234abcd" ++ "-" ++ "5678") "ex.html"
     = Some ("[" ++ "webapp" ++ "." ++ "1234abcd" ++ "] " ++ "ex.html" ++ str LF)
  /\ decorateLog ("webapp" ++ "." ++ "1234abcd" ++ "-" ++ "5678") ("GET /ind" ++ "ex.html")
     = Some ("[" ++ "webapp" ++ "." ++ "1234abcd" ++ "] " ++ "GET /ind" ++ "ex.html" ++ str LF).
Proof.
  apply (decorateLog_cut_line "webapp" "1234abcd" "5678" "GET /ind" "ex.html");
    try reflexivity; discriminate.
Defined.

(** ** What a tailer has read and sent *)

Lemma wrap_wrap (z : Z) : GoInt.wrap (GoInt.wrap z) = GoInt.wrap z.
Proof.
  pose proof (wrap_add_l z 0) as H. now rewrite !Z.add_0_r in H.
Qed.

Lemma sent_app (a b : list action) : sent (a ++ b) = (sent a ++ sent b)%list.
Proof. unfold sent. apply flat_map_app. Qed.

Section TailRuns.

Variable unmarshal : string -> readData.

(** X13. A request that fails is reported and made again at once, at the
    same offset, without a sleep: a run of failures is a run of requests
    for one offset, each followed by its report, and then the tailer goes
    on from that offset. *)
Theorem asyncTail_retries (t : tailer) (offset : Z) (msgs : list string)
        (rest : list (fetched string)) :
  tailFrom unmarshal t offset (map Failed msgs ++ rest)
  = (flat_map (retry t offset) msgs ++ tailFrom unmarshal t offset rest)%list
  /\ offsetAfter unmarshal t offset (map Failed msgs ++ rest)
     = offsetAfter unmarshal t offset rest.
Proof.
  induction msgs as [|msg msgs [IHtrace IHoffset]]; cbn [map app flat_map].
  - split; reflexivity.
  - split.
    + cbn [tailFrom pollOnce]. rewrite IHtrace. reflexivity.
    + cbn [offsetAfter pollOnce snd]. exact IHoffset.
Qed.

(** The offset after some answers, from an offset within [int]. *)
Lemma offsetAfter_total (t : tailer) (resps : list (fetched string)) (o0 o : Z) :
  GoInt.wrap o0 = o0 ->
  offsetAfter unmarshal t o0 resps = Continue o ->
  o = GoInt.wrap (o0 + totalLen (emitted unmarshal resps)).
Proof.
  revert o0. induction resps as [|resp resps IH]; intros o0 Ho0; cbn [offsetAfter].
  - intros [= <-]. cbn [emitted flat_map totalLen fold_right]. now rewrite Z.add_0_r.
  - unfold emitted. cbn [flat_map]. fold (emitted unmarshal resps).
    destruct resp as [body|msg]; cbn [pollOnce].
    + destruct (len (Data (unmarshal body)) <? 5); cbn [snd app].
      * now apply IH.
      * destruct (decorateLog _ _); cbn [snd]; [|discriminate].
        intros H. apply IH in H; [|apply wrap_wrap].
        rewrite H. unfold GoInt.add. rewrite wrap_add_l.
        unfold totalLen. cbn [fold_right]. f_equal. lia.
    + cbn [snd app]. now apply IH.
Qed.

(** X14. Whenever the tailer is about to make a request, its offset is
    the number of bytes of the payloads it has sent on so far (those of 5
    bytes or more), reduced to Go's [int]: short payloads, failed requests
    and the offset field of the answers do not count. *)
Theorem asyncTail_offset (t : tailer) (resps : list (fetched string)) (o : Z) :
  offsetAfter unmarshal t 0 resps = Continue o ->
  o = GoInt.wrap (totalLen (emitted unmarshal resps))
  /\ (totalLen (emitted unmarshal resps) <= GoInt.maxInt ->
      o = totalLen (emitted unmarshal resps)).
Proof.
  intros H. apply offsetAfter_total in H; [|reflexivity].
  rewrite Z.add_0_l in H. split; [exact H|].
  intros Hfits. rewrite H. apply wrap_inRange. split; [|exact Hfits].
  assert (Hpos : forall l, 0 <= totalLen l).
  { induction l as [|x l IHl]; cbn [totalLen fold_right]; [lia|].
    fold (totalLen l). pose proof (len_nonneg x). lia. }
  specialize (Hpos (emitted unmarshal resps)).
  unfold GoInt.minInt. change (- 2 ^ 63) with (-9223372036854775808). lia.
Qed.

Lemma tailFrom_sends (t : tailer) (prefix : string) :
  (forall data, decorateLog (mstateTask.ID (tailTask t)) data = Some (decorated prefix data)) ->
  forall resps offset,
    sent (tailFrom unmarshal t offset resps)
    = map (decorated prefix) (emitted unmarshal resps)
    /\ exists o, offsetAfter unmarshal t offset resps = Continue o.
Proof.
  intros Hdec. induction resps as [|resp resps IH]; intros offset.
  - split; [reflexivity | now exists offset].
  - cbn [tailFrom offsetAfter]. unfold emitted. cbn [flat_map]. fold (emitted unmarshal resps).
    destruct resp as [body|msg]; cbn [pollOnce].
    + destruct (len (Data (unmarshal body)) <? 5); cbn [snd app].
      * destruct (IH offset) as [Hsent Hoff]. split; [exact Hsent | exact Hoff].
      * rewrite Hdec. cbn [snd app].
        destruct (IH (GoInt.add offset (len (Data (unmarshal body))))) as [Hsent Hoff].
        split; [|exact Hoff].
        change (sent (HttpGet (tailURL t offset)
                        :: Send (decorated prefix (Data (unmarshal body)))
                        :: tailFrom unmarshal t
                             (GoInt.add offset (len (Data (unmarshal body)))) resps))
          with (decorated prefix (Data (unmarshal body))
                  :: sent (tailFrom unmarshal t
                                    (GoInt.add offset (len (Data (unmarshal body)))) resps)).
        cbn [map]. now rewrite Hsent.
    + cbn [snd app]. destruct (IH offset) as [Hsent Hoff]. split; [exact Hsent | exact Hoff].
Qed.

(** X15. For a task id of the shape [p.s-r] the tailer never panics, and
    what it sends on its channel is, in order, the decoration of each
    payload of 5 bytes or more that it fetched, one chunk per payload;
    nothing is sent for a short payload or a failed request. *)
Theorem asyncTail_sends (t : tailer) (p s r : string) (resps : list (fetched string)) :
  mstateTask.ID (tailTask t) = (p ++ "." ++ s ++ "-" ++ r)%string ->
  hasByte dot p = false ->
  hasByte dash s = false ->
  sent (asyncTail unmarshal t resps)
  = map (decorated (p ++ "." ++ s)) (emitted unmarshal resps)
  /\ exists o, offsetAfter unmarshal t 0 resps = Continue o.
Proof.
  intros Hid Hp Hs. unfold asyncTail. apply tailFrom_sends.
  intros data. rewrite Hid. now apply decorateLog_shape.
Qed.

Lemma tailFrom_malformed (t : tailer) :
  (forall data, decorateLog (mstateTask.ID (tailTask t)) data = None) ->
  forall resps offset,
    sent (tailFrom unmarshal t offset resps) = []
    /\ (emitted unmarshal resps = [] ->
        offsetAfter unmarshal t offset resps = Continue offset)
    /\ (emitted unmarshal resps <> [] ->
        offsetAfter unmarshal t offset resps = Crashed
        /\ exists earlier, tailFrom unmarshal t offset resps = (earlier ++ [Panic])%list).
Proof.
  intros Hdec. induction resps as [|resp resps IH]; intros offset.
  - split; [reflexivity|]. split; [reflexivity | intros H; now contradiction H].
  - cbn [tailFrom offsetAfter]. unfold emitted. cbn [flat_map]. fold (emitted unmarshal resps).
    destruct (IH offset) as (Hsent & Hnone & Hsome).
    destruct resp as [body|msg]; cbn [pollOnce].
    + destruct (len (Data (unmarshal body)) <? 5); cbn [snd app].
      * split; [exact Hsent|]. split; [exact Hnone|].
        intros Hne. destruct (Hsome Hne) as [Hcrash [earlier Htrace]].
        split; [exact Hcrash|].
        exists (HttpGet (tailURL t offset)
                  :: Sleep (GoInt.mul (tailDuration t) time_Second) :: earlier).
        now rewrite Htrace.
      * rewrite Hdec. cbn [snd app]. split; [reflexivity|].
        split; [discriminate|]. intros _. split; [reflexivity|].
        now exists [HttpGet (tailURL t offset)].
    + cbn [snd app]. split; [exact Hsent|]. split; [exact Hnone|].
      intros Hne. destruct (Hsome Hne) as [Hcrash [earlier Htrace]].
      split; [exact Hcrash|].
      exists (HttpGet (tailURL t offset) :: Printf ("Error: " ++ msg) :: earlier).
      now rewrite Htrace.
Qed.

(** X16. For a task id without ['.'] (or without ['-'] after its first
    ['.']) the tailer never sends anything: it polls and sleeps until the
    first payload of 5 bytes or more, and panics on it. *)
Theorem asyncTail_malformed_id (t : tailer) (resps : list (fetched string)) :
  decorateLog (mstateTask.ID (tailTask t)) EmptyString = None ->
  sent (asyncTail unmarshal t resps) = []
  /\ (emitted unmarshal resps = [] -> offsetAfter unmarshal t 0 resps = Continue 0)
  /\ (emitted unmarshal resps <> [] ->
      offsetAfter unmarshal t 0 resps = Crashed
      /\ exists earlier, asyncTail unmarshal t resps = (earlier ++ [Panic])%list).
Proof.
  intros Hbad. unfold asyncTail. apply tailFrom_malformed.
  destruct (decorateLog_cases (mstateTask.ID (tailTask t)))
    as [(p & s & r & _ & _ & _ & Hall)|[_ Hall]]; [|exact Hall].
  rewrite Hall in Hbad. discriminate.
Qed.

End TailRuns.

Lemma asyncTail_offset_witness :
  12 = GoInt.wrap (totalLen (emitted dataOnly fourAnswers))
  /\ (totalLen (emitted dataOnly fourAnswers) <= GoInt.maxInt ->
      12 = totalLen (emitted dataOnly fourAnswers)).
Proof.
  apply (asyncTail_offset dataOnly webappTailer fourAnswers 12). reflexivity.
Defined.

Lemma asyncTail_sends_witness :
  sent (asyncTail dataOnly webappTailer fourAnswers)
  = map (decorated ("webapp" ++ "." ++ "1234abcd")) (emitted dataOnly fourAnswers)
  /\ exists o, offsetAfter dataOnly webappTailer 0 fourAnswers = Continue o.
Proof.
  apply (asyncTail_sends dataOnly webappTailer "webapp" "1234abcd" "5678" fourAnswers);
    reflexivity.
Defined.

Lemma asyncTail_malformed_id_witness :
  sent (asyncTail dataOnly plainIdTailer fourAnswers) = []
  /\ (emitted dataOnly fourAnswers = [] ->
      offsetAfter dataOnly plainIdTailer 0 fourAnswers = Continue 0)
  /\ (emitted dataOnly fourAnswers <> [] ->
      offsetAfter dataOnly plainIdTailer 0 fourAnswers = Crashed
      /\ exists earlier,
          asyncTail dataOnly plainIdTailer fourAnswers = (earlier ++ [Panic])%list).
Proof.
  apply (asyncTail_malformed_id dataOnly plainIdTailer fourAnswers). reflexivity.
Defined.

Example asyncTail_fourAnswers :
  asyncTail dataOnly webappTailer fourAnswers
  = [HttpGet (tailURL webappTailer 0);
     Send ("[webapp.1234abcd] line1" ++ str LF);
     HttpGet (tailURL webappTailer 6);
     Sleep 2000000000;
     HttpGet (tailURL webappTailer 6);
     Printf "Error: connection reset";
     HttpGet (tailURL webappTailer 6);
     Send ("[webapp.1234abcd] line2!" ++ str LF);
     HttpGet (tailURL webappTailer 12)].
Proof. reflexivity. Qed.

Example asyncTail_plainId :
  asyncTail dataOnly plainIdTailer fourAnswers = [HttpGet (tailURL plainIdTailer 0); Panic].
Proof. reflexivity. Qed.

(** ** What the merged channel delivers, by input *)

Lemma skipn_cons_nth (A : Type) (k : nat) (l r : list A) (n : A) :
  n :: r = skipn k l -> nth_error l k = Some n /\ r = skipn (S k) l.
Proof.
  revert l. induction k as [|k IH]; intros l H.
  - destruct l as [|x l]; cbn [skipn] in H; [discriminate|].
    injection H as -> ->. split; reflexivity.
  - destruct l as [|x l]; cbn [skipn] in H; [discriminate|].
    cbn [nth_error]. change (skipn (S (S k)) (x :: l)) with (skipn (S k) l). now apply IH.
Qed.

Lemma forallb_nth (A : Type) (f : A -> bool) (l : list A) (i : nat) (x : A) :
  forallb f l = true -> nth_error l i = Some x -> f x = true.
Proof.
  intros Hall Hi. rewrite forallb_forall in Hall. apply Hall.
  eapply nth_error_In. exact Hi.
Qed.

Lemma merge_inStep (cs : list source) : inStepWith cs (fun _ => 0%nat) (merge cs).
Proof.
  unfold inStepWith, merge. cbn [inputs outClosed].
  split; [apply length_map|]. split; [|discriminate].
  intros i c p Hc Hp. rewrite nth_error_map, Hc in Hp. injection Hp as <-.
  split; reflexivity.
Qed.

(** A step of one goroutine, seen from its place in the list. *)
Lemma inStepWith_setNth (cs : list source) (handed handed' : nat -> nat) (st : merged)
      (i : nat) (p' : source * forwarder) (out : list string) :
  inStepWith cs handed st ->
  (i < List.length (inputs st))%nat ->
  outClosed st = false ->
  (forall j, j <> i -> handed' j = handed j) ->
  (forall c, nth_error cs i = Some c -> inStep c (handed' i) p') ->
  inStepWith cs handed'
             {| inputs := setNth i p' (inputs st); delivered := out;
                outClosed := outClosed st |}.
Proof.
  intros (Hlen & Hstep & Hclosed) Hi Hopen Hother Hnew.
  unfold inStepWith. cbn [inputs outClosed].
  split; [now rewrite setNth_length|]. split; [|rewrite Hopen; discriminate].
  intros j c p Hc Hp. destruct (Nat.eq_dec j i) as [->|Hne].
  - rewrite setNth_same in Hp by exact Hi. injection Hp as <-. now apply Hnew.
  - rewrite setNth_other in Hp by exact Hne. rewrite (Hother j Hne).
    exact (Hstep j c p Hc Hp).
Qed.

(** While a goroutine is not done, [out] is open. *)
Lemma inStepWith_open (cs : list source) (handed : nat -> nat) (st : merged)
      (i : nat) (p : source * forwarder) :
  inStepWith cs handed st ->
  nth_error (inputs st) i = Some p -> isFinished p = false ->
  outClosed st = false.
Proof.
  intros (_ & _ & Hclosed) Hp Hnot.
  destruct (outClosed st); [|reflexivity].
  rewrite (forallb_nth _ _ _ i p (Hclosed eq_refl) Hp) in Hnot. discriminate.
Qed.

Lemma nth_error_both (cs : list source) (st : merged) (i : nat) (p : source * forwarder) :
  List.length (inputs st) = List.length cs ->
  nth_error (inputs st) i = Some p ->
  (i < List.length (inputs st))%nat /\ exists c, nth_error cs i = Some c.
Proof.
  intros Hlen Hp.
  assert (Hi : (i < List.length (inputs st))%nat) by (apply nth_error_Some; congruence).
  split; [exact Hi|].
  destruct (nth_error cs i) as [c|] eqn:E; [now exists c|].
  apply nth_error_None in E. lia.
Qed.

(** Every step keeps the state in step, and a hand-over delivers the next
    value of its input. *)
Lemma fire_inStep (cs : list source) (handed : nat -> nat) (m : move) (st st' : merged) :
  inStepWith cs handed st ->
  fire m st = Some st' ->
  match m with
  | Forward i =>
      inStepWith cs (handOver handed i) st'
      /\ exists c n,
          nth_error cs i = Some c /\ nth_error (pending c) (handed i) = Some n
          /\ delivered st' = (delivered st ++ [n])%list
  | _ => inStepWith cs handed st' /\ delivered st' = delivered st
  end.
Proof.
  intros Hin Hfire. pose proof Hin as (Hlen & Hstep & Hclosed).
  destruct m as [i|i|i|]; cbn [fire] in Hfire.
  - destruct (nth_error (inputs st) i) as [[[[|n rest] cl] [|n'|]]|] eqn:E;
      try discriminate.
    injection Hfire as <-. split; [|reflexivity].
    destruct (nth_error_both cs st i _ Hlen E) as [Hi _].
    apply (inStepWith_setNth cs handed handed st i); [exact Hin | exact Hi | | reflexivity |].
    + exact (inStepWith_open cs handed st i _ Hin E eq_refl).
    + intros c Hc. destruct (Hstep i c _ Hc E) as [Hcl Hpend]. split; assumption.
  - destruct (nth_error (inputs st) i) as [[[[|n rest] [|]] [|n'|]]|] eqn:E;
      try discriminate.
    injection Hfire as <-. split; [|reflexivity].
    destruct (nth_error_both cs st i _ Hlen E) as [Hi _].
    apply (inStepWith_setNth cs handed handed st i); [exact Hin | exact Hi | | reflexivity |].
    + exact (inStepWith_open cs handed st i _ Hin E eq_refl).
    + intros c Hc. destruct (Hstep i c _ Hc E) as [Hcl _]. split; [exact Hcl|].
      cbn [snd fst closes] in *. now rewrite <- Hcl.
  - destruct (nth_error (inputs st) i) as [[src [|n|]]|] eqn:E; try discriminate.
    injection Hfire as <-.
    destruct (nth_error_both cs st i _ Hlen E) as [Hi [c Hc]].
    destruct (Hstep i c _ Hc E) as [Hcl Hpend]. cbn [snd fst] in Hcl, Hpend.
    apply skipn_cons_nth in Hpend as [Hnth Hrest].
    split.
    + apply (inStepWith_setNth cs handed (handOver handed i) st i);
        [exact Hin | exact Hi | | |].
      * exact (inStepWith_open cs handed st i _ Hin E eq_refl).
      * intros j Hj. unfold handOver. now destruct (Nat.eqb_spec j i).
      * intros c' Hc'. assert (c' = c) by congruence. subst c'.
        unfold handOver. rewrite Nat.eqb_refl. split; [exact Hcl | exact Hrest].
    + exists c, n. auto.
  - destruct (forallb isFinished (inputs st) && negb (outClosed st)) eqn:E; [|discriminate].
    injection Hfire as <-. split; [|reflexivity].
    apply andb_true_iff in E as [Hall _].
    unfold inStepWith. cbn [inputs outClosed]. auto.
Qed.

Lemma run_inStep (cs : list source) (schedule : list move) (handed : nat -> nat)
      (st st' : merged) :
  inStepWith cs handed st ->
  run schedule st = Some st' ->
  map Some (delivered st')
  = (map Some (delivered st) ++ inInputOrder cs handed schedule)%list
  /\ exists handed', inStepWith cs handed' st'.
Proof.
  revert handed st. induction schedule as [|m schedule IH]; intros handed st Hin; cbn [run].
  - intros [= <-]. cbn [inInputOrder]. rewrite app_nil_r. split; [reflexivity|].
    now exists handed.
  - destruct (fire m st) as [st1|] eqn:E; [|discriminate]. intros Hrun.
    pose proof (fire_inStep cs handed m st st1 Hin E) as Hstep.
    destruct m as [i|i|i|]; cbn [inInputOrder].
    + destruct Hstep as [Hin1 Hd]. rewrite <- Hd. exact (IH handed st1 Hin1 Hrun).
    + destruct Hstep as [Hin1 Hd]. rewrite <- Hd. exact (IH handed st1 Hin1 Hrun).
    + destruct Hstep as [Hin1 (c & n & Hc & Hn & Hd)].
      destruct (IH (handOver handed i) st1 Hin1 Hrun) as [Hdel Hex].
      split; [|exact Hex].
      rewrite Hdel, Hd, Hc, Hn, map_app, <- app_assoc. reflexivity.
    + destruct Hstep as [Hin1 Hd]. rewrite <- Hd. exact (IH handed st1 Hin1 Hrun).
Qed.

(** X17. Whatever the scheduler does, the merged channel delivers the
    values of each input in the order of that input: the [k]-th value
    that the goroutine of input [i] hands over is the [k]-th value of
    input [i]. *)
Theorem merge_in_input_order (cs : list source) (schedule : list move) (st : merged) :
  run schedule (merge cs) = Some st ->
  map Some (delivered st) = inInputOrder cs (fun _ => 0%nat) schedule.
Proof.
  intros Hrun.
  destruct (run_inStep cs schedule (fun _ => 0%nat) (merge cs) st (merge_inStep cs) Hrun)
    as [Hdel _].
  exact Hdel.
Qed.

Lemma merge_in_input_order_witness :
  map Some ["b1"; "a1"; "a2"; "b2"]
  = inInputOrder [{| pending := ["a1"; "a2"]; closes := false |};
                  {| pending := ["b1"; "b2"]; closes := false |}]
                 (fun _ => 0%nat)
                 [Recv 0%nat; Recv 1%nat; Forward 1%nat; Forward 0%nat; Recv 0%nat;
                  Recv 1%nat; Forward 0%nat; Forward 1%nat].
Proof.
  exact (merge_in_input_order
           [{| pending := ["a1"; "a2"]; closes := false |};
            {| pending := ["b1"; "b2"]; closes := false |}]
           [Recv 0%nat; Recv 1%nat; Forward 1%nat; Forward 0%nat; Recv 0%nat;
            Recv 1%nat; Forward 0%nat; Forward 1%nat]
           _ eq_refl).
Defined.

Lemma finished_owes_nothing (l : list (source * forwarder)) :
  forallb isFinished l = true -> flat_map owed l = [].
Proof.
  intros Hall. apply flat_map_nothing. intros i [src fw] Hi.
  pose proof (forallb_nth _ _ _ i _ Hall Hi) as Hfin.
  unfold isFinished in Hfin. cbn [snd] in Hfin. destruct fw; try discriminate. reflexivity.
Qed.

Lemma finished_no_step (st : merged) (m : move) :
  forallb isFinished (inputs st) = true -> outClosed st = true -> fire m st = None.
Proof.
  intros Hall Hclosed.
  assert (Hfin : forall i src fw, nth_error (inputs st) i = Some (src, fw) -> fw = Finished).
  { intros i src fw Hi. pose proof (forallb_nth _ _ _ i _ Hall Hi) as H.
    unfold isFinished in H. cbn [snd] in H. now destruct fw. }
  destruct m as [i|i|i|]; cbn [fire].
  - destruct (nth_error (inputs st) i) as [[src fw]|] eqn:E; [|reflexivity].
    rewrite (Hfin i src fw E). now destruct src as [[|n rest] cl].
  - destruct (nth_error (inputs st) i) as [[src fw]|] eqn:E; [|reflexivity].
    rewrite (Hfin i src fw E). now destruct src as [[|n rest] [|]].
  - destruct (nth_error (inputs st) i) as [[src fw]|] eqn:E; [|reflexivity].
    now rewrite (Hfin i src fw E).
  - rewrite Hclosed, andb_false_r. reflexivity.
Qed.

(** X18. [out] is closed last: in a state where it is closed, every input
    was closed by its sender, every value of every input has been
    delivered, and no goroutine of [merge] takes another step, so nothing
    is ever sent on the closed channel.  With an input that is never
    closed, as the channel of a tailer is, [out] is never closed. *)
Theorem merge_closes_last (cs : list source) (schedule : list move) (st : merged) :
  run schedule (merge cs) = Some st ->
  (outClosed st = true ->
   (forall c, In c cs -> closes c = true)
   /\ Permutation (delivered st) (flat_map pending cs)
   /\ forall m, fire m st = None)
  /\ ((exists c, In c cs /\ closes c = false) -> outClosed st = false).
Proof.
  intros Hrun.
  destruct (run_inStep cs schedule (fun _ => 0%nat) (merge cs) st (merge_inStep cs) Hrun)
    as [_ (handed & Hlen & Hstep & Hclosed)].
  assert (Hall : outClosed st = true -> forall c, In c cs -> closes c = true).
  { intros Hout c Hc. apply In_nth_error in Hc as [i Hi].
    assert (Hlt : (i < List.length (inputs st))%nat)
      by (rewrite Hlen; apply nth_error_Some; congruence).
    destruct (nth_error (inputs st) i) as [[src fw]|] eqn:E;
      [|apply nth_error_None in E; lia].
    pose proof (forallb_nth _ _ _ i _ (Hclosed Hout) E) as Hfin.
    destruct (Hstep i c _ Hi E) as [_ Hfw].
    unfold isFinished in Hfin. cbn [snd] in Hfin, Hfw. destruct fw; try discriminate.
    exact Hfw. }
  split.
  - intros Hout. split; [exact (Hall Hout)|]. split.
    + pose proof (run_merge_accounts cs schedule st Hrun) as Hacc.
      now rewrite (finished_owes_nothing _ (Hclosed Hout)), app_nil_r in Hacc.
    + intros m. exact (finished_no_step st m (Hclosed Hout) Hout).
  - intros (c & Hc & Hnever).
    destruct (outClosed st) eqn:Hout; [|reflexivity].
    rewrite (Hall eq_refl c Hc) in Hnever. discriminate.
Qed.

Lemma merge_closes_last_witness :
  (outClosed {| inputs := [({| pending := []; closes := true |}, Finished)];
                delivered := ["last words"]; outClosed := true |} = true ->
   (forall c, In c [oneChunk "last words" true] -> closes c = true)
   /\ Permutation (delivered {| inputs := [({| pending := []; closes := true |}, Finished)];
                               delivered := ["last words"]; outClosed := true |})
                  (flat_map pending [oneChunk "last words" true])
   /\ forall m, fire m {| inputs := [({| pending := []; closes := true |}, Finished)];
                          delivered := ["last words"]; outClosed := true |} = None)
  /\ ((exists c, In c [oneChunk "last words" true] /\ closes c = false) ->
      outClosed {| inputs := [({| pending := []; closes := true |}, Finished)];
                   delivered := ["last words"]; outClosed := true |} = false).
Proof.
  exact (merge_closes_last [oneChunk "last words" true]
                           [Recv 0%nat; Forward 0%nat; Eof 0%nat; CloseOut]
                           _ eq_refl).
Defined.

(** ** From the identifier to the first request *)

Section FirstRequest.

Variable getSlaveState : URL.t -> fetched slaveState.t.
Variable unmarshal : string -> readData.




End FirstRequest.

